(** * playwright-mcp: session lifecycle, tool dispatch and ancestor-HTML resolution

    A shallow embedding of [src/context.ts], [src/server.ts] (with the
    common tools that follow it), [src/tools/snapshot.ts], the bridge to
    the REPL (repl-utils.ts) and the completer of [pw-repl.js], and the
    properties proved of it.

    Definitions:
    - [Js]: thrown values, [String(error)], outcomes of calls.
    - [Lifecycle]: [createBrowser] and the [Context] class as trees of
      awaited calls, run by an event loop that interleaves calls of
      [ensurePage], answers of the outside world and page events.
    - [Dispatch]: argument schemas, the tools, and the
      [CallToolRequestSchema] handler, in a state-and-exception monad.
    - [Ancestor]: the ascent loop of [browser_get_ancestor_html] over a
      document given by its parent query.
    - [ServerClose]: the [close] property of the server object.
    - [Session]: [Context.close], and observations on what a session does.
    - [Registry]: the handlers that list tools and list and read resources.
    - [Repl]: [executePlaywrightCode], [replHealhCheck], [getVariableStore],
      the handler of [browser_evaluate_playwright], and the completer.

    Properties: [LifecycleFacts], [DispatchFacts], [AncestorFacts],
    [ServerCloseFacts], [SessionFacts], [ToolFacts], [RegistryFacts],
    [ReplFacts], [AscentFacts]. *)

From Stdlib Require Import String Ascii List ZArith Lia Bool.
From stdpp Require Import base list strings pretty.
Import ListNotations.

Local Open Scope nat_scope.
#[local] Set Warnings "-register-all".

(* ===================================================================== *)
(** ** JavaScript values that are thrown, and outcomes                    *)
(* ===================================================================== *)

Module Js.

(** One issue of a [ZodError]: the path of the offending key, what the
    schema expected and what it received. *)
Record ZodIssue := {
  issue_path : string;
  issue_expected : string;
  issue_received : string;
}.

(** What [throw] can carry in the modelled code: an [Error] instance with
    its [name] and [message], or a [ZodError] with its issues. *)
Inductive Thrown :=
| Err (name message : string)
| ZodErr (issues : list ZodIssue).

Definition TypeError (message : string) : Thrown := Err "TypeError" message.
Definition RangeError (message : string) : Thrown := Err "RangeError" message.

Definition show_issue (i : ZodIssue) : string :=
  "{expected: " +:+ issue_expected i +:+ ", received: " +:+ issue_received i
    +:+ ", path: " +:+ issue_path i +:+ "}".

(** [error.message]; a [ZodError]'s message is its issues, serialized. *)
Definition message (e : Thrown) : string :=
  match e with
  | Err _ m => m
  | ZodErr issues => "[" +:+ String.concat ", " (map show_issue issues) +:+ "]"
  end.

(** [String(error)]: [Error.prototype.toString] gives the name, the
    message, or [name: message]; [ZodError] overrides [toString] to return
    the message. *)
Definition String_ (e : Thrown) : string :=
  match e with
  | Err n m =>
      if String.eqb n EmptyString then m
      else if String.eqb m EmptyString then n
      else n +:+ ": " +:+ m
  | ZodErr _ => message e
  end.

(** The one-character string holding a double quote. *)
Definition dquote : string := String (ascii_of_nat 34) EmptyString.

(** A call either returns a value or throws (a promise either fulfils or
    rejects). *)
Inductive outcome (A : Type) :=
| Returned (a : A)
| Threw (e : Thrown).
Arguments Returned {A} a.
Arguments Threw {A} e.

End Js.
Import Js.

(* ===================================================================== *)
(** ** The session lifecycle: [src/context.ts]                            *)
(* ===================================================================== *)

Module Lifecycle.

(** *** Playwright objects *)

Definition Page := nat.
Record BrowserContext := { pages : list Page }.
Record Browser := { browser_id : nat; contexts : list BrowserContext }.

(** [playwright.LaunchOptions]: an object, as its keys with the JSON text of
    their values. *)
Definition LaunchOptions := list (string * string).

(** A frame is the page's main frame or is embedded in a parent frame. *)
Inductive Frame :=
| main_frame (frame_name : string)
| child_frame (frame_name : string) (parent : Frame).

(** [frame.parentFrame()] *)
Definition parentFrame (f : Frame) : option Frame :=
  match f with
  | main_frame _ => None
  | child_frame _ p => Some p
  end.

Definition ConsoleMessage := string.

Inductive EventName := console | framenavigated | close.

Inductive PageEvent :=
| ev_console (event : ConsoleMessage)
| ev_framenavigated (frame : Frame)
| ev_close.

Definition event_name (ev : PageEvent) : EventName :=
  match ev with
  | ev_console _ => console
  | ev_framenavigated _ => framenavigated
  | ev_close => close
  end.

Definition EventName_eqb (a b : EventName) : bool :=
  match a, b with
  | console, console | framenavigated, framenavigated | close, close => true
  | _, _ => false
  end.

(** [process.env], the two variables [createBrowser] reads. *)
Record ProcessEnv := {
  PLAYWRIGHT_WS_ENDPOINT : option string;
  CHROME_DEBUGGING_PORT : option string;
}.

(** [String(url)] for [url = new URL(endpoint)] after
    [url.searchParams.set("launch-options", value)]. *)
Record WsUrl := { ws_endpoint : string; ws_launch_options : string }.

(** What the logger is handed. *)
Inductive LogData :=
| LString (s : string)
| LPages (ps : list Page).

(** *** Asynchronous calls into the outside world

    Each is issued synchronously and answered later by the environment. *)
Inductive Call :=
| logger (data : LogData)
| chromium_connect (url : WsUrl)
| chromium_connectOverCDP (url : string)
| chromium_launch (options : LaunchOptions)
| browser_newPage (b : Browser)
| browser_close (b : Browser)
| tick.  (* [await v] for a [v] that is no promise *)

Definition resT (c : Call) : Type :=
  match c with
  | logger _ => unit
  | chromium_connect _ | chromium_connectOverCDP _ | chromium_launch _ => Browser
  | browser_newPage _ => Page
  | browser_close _ => unit
  | tick => unit
  end.

(** Synchronous statements on [this]. *)
Inductive Stmt :=
| set_browser (b : Browser)
| set_page (p : option Page)
| page_on (p : Page) (name : EventName).

(** An [async] function body: statements, awaited calls, and the way it
    ends. The continuation of an [await] receives the fulfilment value or
    the rejection. *)
Inductive Prog (A : Type) : Type :=
| Ret (a : A)
| Throw (e : Thrown)
| Do (s : Stmt) (k : Prog A)
| Await (c : Call) (k : outcome (resT c) -> Prog A).
Arguments Ret {A} a.
Arguments Throw {A} e.
Arguments Do {A} s k.
Arguments Await {A} c k.

Fixpoint bind {A B} (m : Prog A) (f : A -> Prog B) : Prog B :=
  match m with
  | Ret a => f a
  | Throw e => Throw e
  | Do s k => Do s (bind k f)
  | Await c k => Await c (fun o => bind (k o) f)
  end.

(** [await c]: a rejection is rethrown at the [await]. *)
Definition await (c : Call) : Prog (resT c) :=
  Await c (fun o => match o with Returned v => Ret v | Threw e => Throw e end).

(** [await v] for a plain value: one turn of the microtask queue. *)
Definition await_value {A} (v : A) : Prog A := Await tick (fun _ => Ret v).

Notation "'let*' x ':=' m 'in' k" := (bind m (fun x => k))
  (at level 10, x name, m at level 100, k at level 200, only parsing).

(** *** [createBrowser] (context.ts 96-117) *)

(** [JSON.stringify(launchOptions)]; [undefined] stays [undefined], which
    [searchParams.set] turns into the string "undefined". *)
Definition JSON_stringify (o : option LaunchOptions) : string :=
  match o with
  | None => "undefined"
  | Some fields =>
      "{" +:+ String.concat ","
                (map (fun kv => dquote +:+ fst kv +:+ dquote +:+ ":" +:+ snd kv) fields)
          +:+ "}"
  end.

(** [{ channel: "chrome", ...launchOptions }]: a [channel] key of
    [launchOptions] replaces the default in place. *)
Definition with_default_channel (o : option LaunchOptions) : LaunchOptions :=
  let given := default [] o in
  match List.find (fun kv => String.eqb (fst kv) "channel") given with
  | Some kv => kv :: List.filter (fun kv => negb (String.eqb (fst kv) "channel")) given
  | None => ("channel", dquote +:+ "chrome" +:+ dquote) :: given
  end.

(** A string is truthy when it is defined and not empty. *)
Definition truthy (s : option string) : option string :=
  match s with
  | Some v => if String.eqb v EmptyString then None else Some v
  | None => None
  end.

Section WithURL.

(** [new URL(s)] throws a [TypeError] on a string that is no URL. *)
Variable URL_canParse : string -> bool.

Definition createBrowser (env : ProcessEnv) (launchOptions : option LaunchOptions)
    (useCDP : bool) : Prog Browser :=
  let* _ := await (logger (LString "createBrowser")) in
  match truthy (PLAYWRIGHT_WS_ENDPOINT env) with
  | Some endpoint =>
      if URL_canParse endpoint then
        await (chromium_connect
                 {| ws_endpoint := endpoint;
                    ws_launch_options := JSON_stringify launchOptions |})
      else Throw (TypeError "Invalid URL")
  | None =>
      (* Support connecting to Chrome debugging port *)
      if useCDP then
        let* _ := await (logger (LString "createBrowser useCDP")) in
        let port := default "9222" (truthy (CHROME_DEBUGGING_PORT env)) in
        await (chromium_connectOverCDP ("http://127.0.0.1:" +:+ port))
      else
        await (chromium_launch (with_default_channel launchOptions))
  end.

(** *** The [Context] class (context.ts 19-94) *)

Record Context := {
  _launchOptions : option LaunchOptions;
  _browser : option Browser;
  _page : option Page;
  _console : list ConsoleMessage;
  _initializePromise : option nat;
}.

(** [new Context(launchOptions, logger)] *)
Definition new_Context (launchOptions : option LaunchOptions) : Context :=
  {| _launchOptions := launchOptions; _browser := None; _page := None;
     _console := []; _initializePromise := None |}.

(** The three subscriptions of [_initialize] (context.ts 77-81);
    [this._page.on] throws when [pages[0]] was [undefined]. *)
Definition subscribe (p : option Page) : Prog unit :=
  match p with
  | None => Throw (TypeError "Cannot read properties of undefined (reading 'on')")
  | Some pg =>
      Do (page_on pg console) (Do (page_on pg framenavigated) (Do (page_on pg close) (Ret tt)))
  end.

(** The body of the [async] arrow function in [_initialize]
    (context.ts 55-82). *)
Definition initialize_body (env : ProcessEnv) (launchOptions : option LaunchOptions)
    : Prog unit :=
  let useCDP := true in
  let* browser := createBrowser env launchOptions useCDP in
  Do (set_browser browser)
    (if useCDP then
       match head (contexts browser) with
       | None => Throw (TypeError "Cannot read properties of undefined (reading 'pages')")
       | Some context =>
           let* pgs := await_value (pages context) in
           let* _ := await (logger (LPages pgs)) in
           Do (set_page (head pgs)) (subscribe (head pgs))
       end
     else
       let* pg := await (browser_newPage browser) in
       Do (set_page (Some pg)) (subscribe (Some pg))).

(** *** The event loop

    One [World] holds the [Context] object and what the JavaScript runtime
    keeps around it: the promises made by [_initialize], the suspended
    bodies, the listeners registered on pages, the calls issued to the
    outside and the callers of [ensurePage]. *)

Inductive PromiseState := Pending | Fulfilled | Rejected (e : Thrown).

(** A caller of [ensurePage]: the promise it awaits and, once it resumed,
    what it got: [this._page] or the rejection. *)
Record Caller := {
  awaits : nat;
  result : option (outcome (option Page));
}.

Record World := {
  this : Context;
  promises : list PromiseState;
  tasks : list (nat * Prog unit);
  handlers : list (Page * EventName);
  trace : list Call;
  callers : list Caller;
}.

Definition with_this (c : Context) (w : World) : World :=
  {| this := c; promises := promises w; tasks := tasks w;
     handlers := handlers w; trace := trace w; callers := callers w |}.
Definition with_promises (ps : list PromiseState) (w : World) : World :=
  {| this := this w; promises := ps; tasks := tasks w;
     handlers := handlers w; trace := trace w; callers := callers w |}.
Definition with_tasks (ts : list (nat * Prog unit)) (w : World) : World :=
  {| this := this w; promises := promises w; tasks := ts;
     handlers := handlers w; trace := trace w; callers := callers w |}.
Definition with_handlers (hs : list (Page * EventName)) (w : World) : World :=
  {| this := this w; promises := promises w; tasks := tasks w;
     handlers := hs; trace := trace w; callers := callers w |}.
Definition with_trace (tr : list Call) (w : World) : World :=
  {| this := this w; promises := promises w; tasks := tasks w;
     handlers := handlers w; trace := tr; callers := callers w |}.
Definition with_callers (cs : list Caller) (w : World) : World :=
  {| this := this w; promises := promises w; tasks := tasks w;
     handlers := handlers w; trace := trace w; callers := cs |}.

Definition with_browser (b : option Browser) (c : Context) : Context :=
  {| _launchOptions := _launchOptions c; _browser := b; _page := _page c;
     _console := _console c; _initializePromise := _initializePromise c |}.
Definition with_page (p : option Page) (c : Context) : Context :=
  {| _launchOptions := _launchOptions c; _browser := _browser c; _page := p;
     _console := _console c; _initializePromise := _initializePromise c |}.
Definition with_console (l : list ConsoleMessage) (c : Context) : Context :=
  {| _launchOptions := _launchOptions c; _browser := _browser c; _page := _page c;
     _console := l; _initializePromise := _initializePromise c |}.
Definition with_initializePromise (p : option nat) (c : Context) : Context :=
  {| _launchOptions := _launchOptions c; _browser := _browser c; _page := _page c;
     _console := _console c; _initializePromise := p |}.

(** The process starts with a fresh [Context] and nothing else. *)
Definition initial_world (launchOptions : option LaunchOptions) : World :=
  {| this := new_Context launchOptions; promises := []; tasks := [];
     handlers := []; trace := []; callers := [] |}.

Definition exec (s : Stmt) (w : World) : World :=
  match s with
  | set_browser b => with_this (with_browser (Some b) (this w)) w
  | set_page p => with_this (with_page p (this w)) w
  | page_on p name => with_handlers (handlers w ++ [(p, name)]) w
  end.

(** Run a body up to its next [await] or its end. *)
Fixpoint run_sync (m : Prog unit) (w : World) : World * Prog unit :=
  match m with
  | Do s k => run_sync k (exec s w)
  | _ => (w, m)
  end.

(** What a caller of [ensurePage] sees of a promise: nothing while it is
    pending, [this._page] once it fulfilled, the rejection otherwise. *)
Definition observe (st : PromiseState) (c : Context) : option (outcome (option Page)) :=
  match st with
  | Pending => None
  | Fulfilled => Some (Returned (_page c))
  | Rejected e => Some (Threw e)
  end.

Definition wake (p : nat) (st : PromiseState) (c : Context) (k : Caller) : Caller :=
  if (awaits k =? p) && bool_decide (result k = None)
  then {| awaits := awaits k; result := observe st c |}
  else k.

(** Settle promise [p]; the callers that await it resume in the same turn. *)
Definition settle (p : nat) (st : PromiseState) (w : World) : World :=
  with_callers (map (wake p st (this w)) (callers w))
    (with_promises (<[p := st]> (promises w)) w).

(** Run the body that settles promise [p] until it suspends or ends. The
    call it suspends on is issued at once. *)
Definition drive (p : nat) (m : Prog unit) (w : World) : World :=
  let (w', m') := run_sync m w in
  match m' with
  | Ret _ => settle p Fulfilled w'
  | Throw e => settle p (Rejected e) w'
  | Await c _ => with_tasks (tasks w' ++ [(p, m')]) (with_trace (trace w' ++ [c]) w')
  | Do _ _ => w'
  end.

Variable env : ProcessEnv.

(** [_initialize] (context.ts 53-84): the world after the call and the
    promise it returns. *)
Definition _initialize (w : World) : World * nat :=
  match _initializePromise (this w) with
  | Some p => (w, p)
  | None =>
      let p := length (promises w) in
      let w' := drive p (initialize_body env (_launchOptions (this w)))
                  (with_promises (promises w ++ [Pending]) w) in
      (with_this (with_initializePromise (Some p) (this w')) w', p)
  end.

(** [ensurePage] (context.ts 34-37), called by some tool. *)
Definition ensurePage (w : World) : World :=
  let (w', p) := _initialize w in
  let st := default Pending (promises w' !! p) in
  with_callers (callers w' ++ [{| awaits := p; result := observe st (this w') |}]) w'.

(** [_reset] (context.ts 86-93); [browser.close()] is issued and not
    awaited. *)
Definition _reset (w : World) : World :=
  let browser := _browser (this w) in
  let c := with_initializePromise None (this w) in
  let c := with_browser None c in
  let c := with_page None c in
  let c := with_console [] c in
  let w := with_this c w in
  match browser with
  | Some b => with_trace (trace w ++ [browser_close b]) w
  | None => w
  end.

(** The three listeners of context.ts 77-81. *)
Definition listener (ev : PageEvent) (w : World) : World :=
  match ev with
  | ev_console event =>
      with_this (with_console (_console (this w) ++ [event]) (this w)) w
  | ev_framenavigated frame =>
      match parentFrame frame with
      | None => with_this (with_console [] (this w)) w
      | Some _ => w
      end
  | ev_close => _reset w
  end.

Definition listens (pg : Page) (ev : PageEvent) (h : Page * EventName) : bool :=
  (fst h =? pg) && EventName_eqb (snd h) (event_name ev).

(** Page [pg] emits [ev]: every listener registered on [pg] for that event
    runs, in registration order. A page that closed emits nothing more, so
    its listeners go with it. *)
Definition emit (pg : Page) (ev : PageEvent) (w : World) : World :=
  let w' := fold_left (fun w _ => listener ev w)
              (List.filter (listens pg ev) (handlers w)) w in
  match ev with
  | ev_close => with_handlers (List.filter (fun h => negb (fst h =? pg)) (handlers w')) w'
  | _ => w'
  end.

(** How the environment answers a call. *)
Definition Answer := forall c : Call, outcome (resT c).

(** The call that the body of promise [p] awaits is answered. *)
Definition resume (p : nat) (a : Answer) (w : World) : World :=
  match List.find (fun t => fst t =? p) (tasks w) with
  | Some (_, Await c k) =>
      drive p (k (a c))
        (with_tasks (List.filter (fun t => negb (fst t =? p)) (tasks w)) w)
  | _ => w
  end.

Inductive Label :=
| call_ensurePage
| answer (p : nat) (a : Answer)
| page_emits (pg : Page) (ev : PageEvent).

Definition step (w : World) (l : Label) : World :=
  match l with
  | call_ensurePage => ensurePage w
  | answer p a => resume p a w
  | page_emits pg ev => emit pg ev w
  end.

Definition run (ls : list Label) (w : World) : World := fold_left step ls w.

(** *** Observations on the calls issued *)

Definition is_createBrowser (c : Call) : bool :=
  match c with
  | logger (LString s) => String.eqb s "createBrowser"
  | _ => false
  end.

Definition is_connection (c : Call) : bool :=
  match c with
  | chromium_connect _ | chromium_connectOverCDP _ | chromium_launch _ => true
  | _ => false
  end.

(** [createBrowser] announces itself to the logger first thing, once per
    invocation. *)
Definition createBrowser_calls (w : World) : nat :=
  length (List.filter is_createBrowser (trace w)).

Definition connection_attempts (w : World) : nat :=
  length (List.filter is_connection (trace w)).

End WithURL.

(** *** Running one asynchronous function on its own

    Every call is answered at once by [a]; the calls issued, in order, and
    the way the function ends. *)
Fixpoint calls_and_result {A} (a : Answer) (m : Prog A) : list Call * outcome A :=
  match m with
  | Ret v => ([], Returned v)
  | Throw e => ([], Threw e)
  | Do _ k => calls_and_result a k
  | Await c k =>
      let r := calls_and_result a (k (a c)) in
      (c :: fst r, snd r)
  end.

(** The connection strategies, told by the call that connects. *)
Inductive Strategy := remote_endpoint | debugging_port | fresh_launch.

Definition strategy_of (c : Call) : list Strategy :=
  match c with
  | chromium_connect _ => [remote_endpoint]
  | chromium_connectOverCDP _ => [debugging_port]
  | chromium_launch _ => [fresh_launch]
  | _ => []
  end.

Definition chosen (calls : list Call) : list Strategy := flat_map strategy_of calls.

(** What reached the logger. *)
Definition logged (calls : list Call) : list LogData :=
  flat_map (fun c => match c with logger d => [d] | _ => [] end) calls.

(** *** Environments used in examples *)

(** Every call succeeds; a connection yields browser [b]. *)
Definition obliging (b : Browser) : Answer :=
  fun c =>
    match c with
    | logger _ => Returned tt
    | chromium_connect _ | chromium_connectOverCDP _ | chromium_launch _ => Returned b
    | browser_newPage _ => Returned 0
    | browser_close _ => Returned tt
    | tick => Returned tt
    end.

(** Every call succeeds but the connection, which is refused with [e]. *)
Definition refusing (e : Thrown) : Answer :=
  fun c =>
    match c with
    | logger _ => Returned tt
    | chromium_connect _ | chromium_connectOverCDP _ | chromium_launch _ => Threw e
    | browser_newPage _ => Returned 0
    | browser_close _ => Returned tt
    | tick => Returned tt
    end.

Definition no_env : ProcessEnv :=
  {| PLAYWRIGHT_WS_ENDPOINT := None; CHROME_DEBUGGING_PORT := None |}.

Definition remote_env : ProcessEnv :=
  {| PLAYWRIGHT_WS_ENDPOINT := Some "ws://browser:3000/";
     CHROME_DEBUGGING_PORT := None |}.

(** A browser with one context holding the pages 7 and 8. *)
Definition chrome : Browser :=
  {| browser_id := 1; contexts := [ {| pages := [7; 8] |} ] |}.

Definition ECONNREFUSED : Thrown :=
  Err "Error" "browserType.connectOverCDP: connect ECONNREFUSED 127.0.0.1:9222".

(** *** The state of the session, read off the world *)

Inductive SessionState :=
| uninitialized
| initializing
| ready (pg : Page)
| failed (e : Thrown).

Definition session_state (w : World) : option SessionState :=
  match _initializePromise (this w) with
  | None => Some uninitialized
  | Some p =>
      match promises w !! p with
      | Some Pending => Some initializing
      | Some Fulfilled => option_map ready (_page (this w))
      | Some (Rejected e) => Some (failed e)
      | None => None
      end
  end.

(** The labels that bring a fresh session to the ready state on page 7. *)
Definition until_ready : list Label :=
  let ok := answer 0 (obliging chrome) in
  [call_ensurePage; ok; ok; ok; ok; ok].

(** *** Page events as a sequence *)

Definition emissions (pg : Page) (evs : list PageEvent) : list Label :=
  map (page_emits pg) evs.

(** The console messages among [evs], in order. *)
Definition messages (evs : list PageEvent) : list ConsoleMessage :=
  flat_map (fun ev => match ev with ev_console m => [m] | _ => [] end) evs.

Definition top_level_navigation (ev : PageEvent) : bool :=
  match ev with
  | ev_framenavigated f =>
      match parentFrame f with None => true | Some _ => false end
  | _ => false
  end.

Definition no_top_level_navigation (evs : list PageEvent) : Prop :=
  Forall (fun ev => top_level_navigation ev = false) evs.

(** *** The shape of a suspended initialization, and the invariant of the
    event loop *)

(** The listeners that [_initialize] leaves on page [pg]. *)
Definition on_page (pg : Page) : list (Page * EventName) :=
  [(pg, console); (pg, framenavigated); (pg, close)].

(** Where a body of [_initialize] stands: before the connection call was
    answered, right after, or with [this._browser] set. *)
Inductive Phase := connecting | connected | attached.

Inductive residual : Phase -> Prog unit -> Prop :=
| res_throw ph e : residual ph (Throw e)
| res_log c k :
    is_createBrowser c = false -> is_connection c = false ->
    (forall o, residual connecting (k o)) -> residual connecting (Await c k)
| res_connect c k :
    is_connection c = true ->
    (forall o, residual connected (k o)) -> residual connecting (Await c k)
| res_browser b m : residual attached m -> residual connected (Do (set_browser b) m)
| res_await c k :
    is_createBrowser c = false -> is_connection c = false ->
    (forall o, residual attached (k o)) -> residual attached (Await c k)
| res_page p : residual attached (Do (set_page p) (subscribe p)).

Definition next (ph : Phase) (c : Call) : Phase :=
  match ph with
  | connecting => if is_connection c then connected else connecting
  | _ => attached
  end.

(** The fields of [this] that a body of [_initialize] leaves alone. *)
Definition ctx_frame (c c' : Context) : Prop :=
  _launchOptions c' = _launchOptions c /\ _console c' = _console c /\
  _initializePromise c' = _initializePromise c.

(** What a caller holds once the promise it awaited is no longer the cached
    one. *)
Definition settled_result (st : option PromiseState)
    (r : option (outcome (option Page))) : Prop :=
  match st with
  | Some Fulfilled => exists pg, r = Some (Returned (Some pg))
  | Some (Rejected e) => r = Some (Threw e)
  | _ => False
  end.

Definition callers_ok (w : World) : Prop :=
  forall k, In k (callers w) ->
    awaits k < length (promises w) /\
    (if decide (_initializePromise (this w) = Some (awaits k))
     then result k = observe (default Pending (promises w !! awaits k)) (this w)
     else settled_result (promises w !! awaits k) (result k)).

Definition callers_agree (w : World) : Prop :=
  forall k1 k2, In k1 (callers w) -> In k2 (callers w) ->
    awaits k1 = awaits k2 -> result k1 = result k2.

(** The session is uninitialized, initializing (one body in flight, no
    listener yet), ready (no body, the listeners on [this._page]) or failed. *)
Definition phase_ok (w : World) : Prop :=
  match _initializePromise (this w) with
  | None =>
      tasks w = [] /\ handlers w = [] /\
      connection_attempts w <= length (promises w)
  | Some p =>
      match promises w !! p with
      | Some Pending =>
          handlers w = [] /\
          exists c k ph,
            tasks w = [(p, Await c k)] /\
            (forall o, residual ph (k o)) /\
            connection_attempts w + (if ph is connecting then 1 else 0)
              <= length (promises w) /\
            (ph = attached -> is_Some (_browser (this w)))
      | Some Fulfilled =>
          tasks w = [] /\
          connection_attempts w <= length (promises w) /\
          exists pg, _page (this w) = Some pg /\ handlers w = on_page pg /\
                     is_Some (_browser (this w))
      | Some (Rejected _) =>
          tasks w = [] /\ handlers w = [] /\
          connection_attempts w <= length (promises w)
      | None => False
      end
  end.

Record Inv (lo : option LaunchOptions) (w : World) : Prop := {
  inv_lo : _launchOptions (this w) = lo;
  inv_newest : forall p, _initializePromise (this w) = Some p -> S p = length (promises w);
  inv_stale : forall q, promises w !! q = Some Pending -> _initializePromise (this w) = Some q;
  inv_created : createBrowser_calls w = length (promises w);
  inv_phase : phase_ok w;
  inv_callers : callers_ok w;
  inv_agree : callers_agree w;
}.

End Lifecycle.

(* ===================================================================== *)
(** ** Tool dispatch: [src/server.ts] and the tools it serves             *)
(* ===================================================================== *)

Module Dispatch.

(** *** Arguments and their schemas *)

(** A JSON value; numbers are kept as integers. *)
Inductive Json :=
| JNull
| JBool (b : bool)
| JNumber (n : Z)
| JString (s : string)
| JArray (items : list Json)
| JObject (fields : list (string * Json)).

(** The zod types the tools declare; [ZodObject] is [z.object({ ... })], every
    key required. *)
Inductive ZodType :=
| z_string
| z_number
| z_boolean
| z_array (item : ZodType).

Definition ZodObject := list (string * ZodType).

(** The type zod reports for a value; [None] is [undefined]. *)
Definition received (v : option Json) : string :=
  match v with
  | None => "undefined"
  | Some JNull => "null"
  | Some (JBool _) => "boolean"
  | Some (JNumber _) => "number"
  | Some (JString _) => "string"
  | Some (JArray _) => "array"
  | Some (JObject _) => "object"
  end.

Definition expected (t : ZodType) : string :=
  match t with
  | z_string => "string"
  | z_number => "number"
  | z_boolean => "boolean"
  | z_array _ => "array"
  end.

Fixpoint conforms (t : ZodType) (v : Json) : bool :=
  match t, v with
  | z_string, JString _ => true
  | z_number, JNumber _ => true
  | z_boolean, JBool _ => true
  | z_array item, JArray items => forallb (conforms item) items
  | _, _ => false
  end.

(** [object[key]] *)
Definition property (fields : list (string * Json)) (key : string) : option Json :=
  match List.find (fun kv => String.eqb (fst kv) key) fields with
  | Some kv => Some (snd kv)
  | None => None
  end.

Definition check_key (fields : list (string * Json)) (kt : string * ZodType)
    : list ZodIssue :=
  match property fields (fst kt) with
  | Some v =>
      if conforms (snd kt) v then []
      else [{| issue_path := fst kt; issue_expected := expected (snd kt);
               issue_received := received (Some v) |}]
  | None =>
      [{| issue_path := fst kt; issue_expected := expected (snd kt);
          issue_received := received None |}]
  end.

(** The declared keys of a validated object; other keys are stripped. *)
Definition strip (schema : ZodObject) (fields : list (string * Json))
    : list (string * Json) :=
  flat_map (fun kt => match property fields (fst kt) with
                      | Some v => [(fst kt, v)]
                      | None => []
                      end) schema.

(** [schema.parse(params)]: the validated object, or a [ZodError] with every
    issue found. *)
Definition parse (schema : ZodObject) (params : option Json)
    : outcome (list (string * Json)) :=
  match params with
  | Some (JObject fields) =>
      match flat_map (check_key fields) schema with
      | [] => Returned (strip schema fields)
      | issues => Threw (ZodErr issues)
      end
  | other =>
      Threw (ZodErr [{| issue_path := EmptyString; issue_expected := "object";
                        issue_received := received other |}])
  end.

(** [validatedParams.key] for a key declared [z.string()]. *)
Definition str (validated : list (string * Json)) (key : string) : string :=
  match property validated key with
  | Some (JString s) => s
  | _ => EmptyString
  end.

(** [validatedParams.key] for a key declared [z.number()]. *)
Definition num (validated : list (string * Json)) (key : string) : Z :=
  match property validated key with
  | Some (JNumber n) => n
  | _ => 0%Z
  end.

(** [validatedParams.key] for a key declared [z.array(z.string())]. *)
Definition strs (validated : list (string * Json)) (key : string) : list string :=
  match property validated key with
  | Some (JArray items) =>
      flat_map (fun v => match v with JString s => [s] | _ => [] end) items
  | _ => []
  end.

(** [validatedParams.key] for a key declared [z.boolean()]. *)
Definition flag (validated : list (string * Json)) (key : string) : bool :=
  match property validated key with
  | Some (JBool b) => b
  | _ => false
  end.

(** *** Results *)

Inductive Content :=
| text_content (text : string)
| image_content (data mimeType : string).

Record CallToolResult := {
  content : list Content;
  isError : option bool;   (* [None]: the key is absent *)
}.

(** *** What handlers do

    A handler acts on the single session of the server: it asks the page,
    and the helpers of [./utils] that are outside this development, to do
    things, and gets their answers. *)

(** What a callback handed to [runAndWait] does with the page. *)
Inductive PageAction :=
| act_goBack
| act_goForward
| act_keyboard_press (key : string)
| act_click (ref : string)
| act_hover (ref : string)
| act_dragTo (startRef endRef : string)
| act_fill (ref text : string)
| act_press (ref key : string)
| act_outerHTML (ref : string)        (* [formatHTML] of the element's [outerHTML] *)
| act_ancestorHTML (ref : string)     (* the ascent of [Ancestor] below *)
| act_submitFileChooser (paths : list string).

Inductive Op :=
| existingPage                      (* [context.existingPage()] *)
| ensurePage                        (* [await context.ensurePage()] *)
| context_close                     (* [await context.close()] *)
| page_goto (url : string)          (* [page.goto(url, { waitUntil: 'domcontentloaded' })] *)
| page_waitForLoadState             (* [page.waitForLoadState('load', { timeout: 5000 })] *)
| setTimeout (ms : Z)               (* [new Promise(f => setTimeout(f, ms))] *)
| captureAriaSnapshot               (* [captureAriaSnapshot(context)] *)
| runAndWait (status : string) (callback : list PageAction) (snapshot raw : bool).

(** The host of the handlers: what was asked so far, how the browser side
    answers, and the count kept by instrumented handlers. *)
Record Host := {
  performed : list Op;
  replies : Op -> outcome CallToolResult;
  invocations : nat;
}.

(** Computations that change the host and return or throw. *)
Definition M (A : Type) : Type := Host -> outcome A * Host.

Definition ret {A} (a : A) : M A := fun h => (Returned a, h).

Definition throw {A} (e : Thrown) : M A := fun h => (Threw e, h).

Definition mbind {A B} (m : M A) (f : A -> M B) : M B :=
  fun h =>
    match m h with
    | (Returned a, h') => f a h'
    | (Threw e, h') => (Threw e, h')
    end.

(** [try { m } catch (error) { handler(error) }] *)
Definition try_catch {A} (m : M A) (handler : Thrown -> M A) : M A :=
  fun h =>
    match m h with
    | (Returned a, h') => (Returned a, h')
    | (Threw e, h') => handler e h'
    end.

(** A synchronous value or exception, inside a handler. *)
Definition lift {A} (o : outcome A) : M A :=
  match o with
  | Returned a => ret a
  | Threw e => throw e
  end.

Definition perform (op : Op) : M CallToolResult :=
  fun h =>
    (replies h op,
     {| performed := performed h ++ [op]; replies := replies h;
        invocations := invocations h |}).

Notation "'do' x '<-' m ';' k" := (mbind m (fun x => k))
  (at level 10, x name, m at level 100, k at level 200, only parsing).

(** *** Tools (tools/tool.ts) *)

Record ToolSchema := {
  name : string;
  description : string;
  inputSchema : ZodObject;
}.

(** [handle(context, params)]; the [context] is the host's session. *)
Record Tool := {
  schema : ToolSchema;
  handle : option Json -> M CallToolResult;
}.

Definition plain (text : string) : CallToolResult :=
  {| content := [text_content text]; isError := None |}.

(** *** The common tools that follow server.ts

    [browser_save_as_pdf], which depends on the clock and the file system,
    is left out; [browser_evaluate_playwright] is in [Repl] below. *)

Definition navigateSchema : ZodObject := [("url", z_string)].

Definition navigate (snapshot : bool) : Tool := {|
  schema := {| name := "browser_navigate"; description := "Navigate to a URL";
               inputSchema := navigateSchema |};
  handle := fun params =>
    do validatedParams <- lift (parse navigateSchema params);
    do _ <- perform existingPage;
    do _ <- perform (page_goto (str validatedParams "url"));
    (* Cap load event to 5 seconds, the page is operational at this point. *)
    do _ <- try_catch (perform page_waitForLoadState) (fun _ => ret (plain EmptyString));
    if snapshot then perform captureAriaSnapshot
    else ret (plain ("Navigated to " +:+ str validatedParams "url"))
|}.

Definition goBackSchema : ZodObject := [].

Definition goBack (snapshot : bool) : Tool := {|
  schema := {| name := "browser_go_back"; description := "Go back to the previous page";
               inputSchema := goBackSchema |};
  handle := fun _ => perform (runAndWait "Navigated back" [act_goBack] snapshot false)
|}.

Definition goForwardSchema : ZodObject := [].

Definition goForward (snapshot : bool) : Tool := {|
  schema := {| name := "browser_go_forward"; description := "Go forward to the next page";
               inputSchema := goForwardSchema |};
  handle := fun _ => perform (runAndWait "Navigated forward" [act_goForward] snapshot false)
|}.

Definition pressKeySchema : ZodObject := [("key", z_string)].

Definition pressKey : Tool := {|
  schema := {| name := "browser_press_key"; description := "Press a key on the keyboard";
               inputSchema := pressKeySchema |};
  handle := fun params =>
    do validatedParams <- lift (parse pressKeySchema params);
    perform (runAndWait ("Pressed key " +:+ str validatedParams "key")
               [act_keyboard_press (str validatedParams "key")] false false)
|}.

Definition waitSchema : ZodObject := [("time", z_number)].

Definition wait : Tool := {|
  schema := {| name := "browser_wait"; description := "Wait for a specified time in seconds";
               inputSchema := waitSchema |};
  handle := fun params =>
    do validatedParams <- lift (parse waitSchema params);
    do _ <- perform (setTimeout (Z.min 10000 (num validatedParams "time" * 1000)));
    ret (plain ("Waited for " +:+ pretty (num validatedParams "time") +:+ " seconds"))
|}.

Definition closeSchema : ZodObject := [].

Definition close : Tool := {|
  schema := {| name := "browser_close"; description := "Close the page";
               inputSchema := closeSchema |};
  handle := fun _ =>
    do _ <- perform context_close;
    ret (plain "Page closed")
|}.

Definition chooseFileSchema : ZodObject := [("paths", z_array z_string)].

Definition chooseFile (snapshot : bool) : Tool := {|
  schema := {| name := "browser_choose_file";
               description := "Choose one or multiple files to upload";
               inputSchema := chooseFileSchema |};
  handle := fun params =>
    do validatedParams <- lift (parse chooseFileSchema params);
    perform (runAndWait
               ("Chose files " +:+ String.concat ", " (strs validatedParams "paths"))
               [act_submitFileChooser (strs validatedParams "paths")] snapshot false)
|}.

(** *** The snapshot tools (tools/snapshot.ts) *)

Definition snapshot : Tool := {|
  schema := {| name := "browser_snapshot";
               description := "Capture accessibility snapshot of the current page, this is better than screenshot";
               inputSchema := [] |};
  handle := fun _ =>
    do _ <- perform ensurePage;
    perform captureAriaSnapshot
|}.

Definition elementSchema : ZodObject := [("element", z_string); ("ref", z_string)].

Definition click : Tool := {|
  schema := {| name := "browser_click"; description := "Perform click on a web page";
               inputSchema := elementSchema |};
  handle := fun params =>
    do validatedParams <- lift (parse elementSchema params);
    perform (runAndWait (dquote +:+ str validatedParams "element" +:+ dquote +:+ " clicked")
               [act_click (str validatedParams "ref")] true false)
|}.

Definition dragSchema : ZodObject :=
  [("startElement", z_string); ("startRef", z_string);
   ("endElement", z_string); ("endRef", z_string)].

Definition drag : Tool := {|
  schema := {| name := "browser_drag";
               description := "Perform drag and drop between two elements";
               inputSchema := dragSchema |};
  handle := fun params =>
    do validatedParams <- lift (parse dragSchema params);
    perform (runAndWait
               ("Dragged " +:+ dquote +:+ str validatedParams "startElement" +:+ dquote
                  +:+ " to " +:+ dquote +:+ str validatedParams "endElement" +:+ dquote)
               [act_dragTo (str validatedParams "startRef") (str validatedParams "endRef")]
               true false)
|}.

Definition hover : Tool := {|
  schema := {| name := "browser_hover"; description := "Hover over element on page";
               inputSchema := elementSchema |};
  handle := fun params =>
    do validatedParams <- lift (parse elementSchema params);
    perform (runAndWait ("Hovered over " +:+ dquote +:+ str validatedParams "element" +:+ dquote)
               [act_hover (str validatedParams "ref")] true false)
|}.

Definition typeSchema : ZodObject :=
  elementSchema ++ [("text", z_string); ("submit", z_boolean)].

Definition type : Tool := {|
  schema := {| name := "browser_type"; description := "Type text into editable element";
               inputSchema := typeSchema |};
  handle := fun params =>
    do validatedParams <- lift (parse typeSchema params);
    perform (runAndWait
               ("Typed " +:+ dquote +:+ str validatedParams "text" +:+ dquote +:+ " into "
                  +:+ dquote +:+ str validatedParams "element" +:+ dquote)
               (act_fill (str validatedParams "ref") (str validatedParams "text")
                  :: (if flag validatedParams "submit"
                      then [act_press (str validatedParams "ref") "Enter"] else []))
               true false)
|}.

Definition getElementOuterHTML : Tool := {|
  schema := {| name := "browser_get_element_outer_html";
               description := "Get the outer HTML of a specified element";
               inputSchema := elementSchema |};
  handle := fun params =>
    do validatedParams <- lift (parse elementSchema params);
    perform (runAndWait
               (dquote +:+ "extracted " +:+ str validatedParams "element" +:+ dquote
                  +:+ " outerHTML")
               [act_outerHTML (str validatedParams "ref")] false true)
|}.

Definition getElementAncestorHTML : Tool := {|
  schema := {| name := "browser_get_ancestor_html";
               description := "Traverses up the DOM tree from the specified element, returning the largest ancestor's HTML that doesn't exceed 8000 characters";
               inputSchema := elementSchema |};
  handle := fun params =>
    do validatedParams <- lift (parse elementSchema params);
    perform (runAndWait
               (dquote +:+ "extracted " +:+ str validatedParams "element" +:+ dquote
                  +:+ " ancestor HTML")
               [act_ancestorHTML (str validatedParams "ref")] false true)
|}.

(** A handler that begins with [schema.parse(params)] on the declared
    schema. *)
Definition validates_first (tool : Tool) : Prop :=
  exists body, forall params,
    handle tool params = mbind (lift (parse (inputSchema (schema tool)) params)) body.

(** The tools above whose handler begins so. *)
Definition validating : list Tool :=
  [navigate true; navigate false; wait; pressKey; chooseFile true; chooseFile false;
   click; drag; hover; type; getElementOuterHTML; getElementAncestorHTML].

(** *** The [CallToolRequestSchema] handler (server.ts 66-86) *)

Record CallToolRequest := {
  req_name : string;
  req_arguments : option Json;
}.

Definition named (n : string) (tool : Tool) : bool := String.eqb (name (schema tool)) n.

Definition error_result (text : string) : CallToolResult :=
  {| content := [text_content text]; isError := Some true |}.

Definition callTool (tools : list Tool) (request : CallToolRequest) : M CallToolResult :=
  match List.find (named (req_name request)) tools with
  | None =>
      ret (error_result ("Tool " +:+ dquote +:+ req_name request +:+ dquote +:+ " not found"))
  | Some tool =>
      try_catch (handle tool (req_arguments request))
        (fun error => ret (error_result (String_ error)))
  end.

(** *** Instrumentation: a handler that counts its invocations *)

Definition count_invocation (h : Host) : Host :=
  {| performed := performed h; replies := replies h; invocations := S (invocations h) |}.

Definition counted (tool : Tool) : Tool := {|
  schema := schema tool;
  handle := fun params h => handle tool params (count_invocation h)
|}.

(** A host on which nothing happened yet and every operation succeeds. *)
Definition fresh_host : Host :=
  {| performed := []; replies := fun _ => Returned (plain "ok"); invocations := 0 |}.

End Dispatch.

(* ===================================================================== *)
(** ** [browser_get_ancestor_html]: tools/snapshot.ts 182-225             *)
(* ===================================================================== *)

Module Ancestor.

(** *** The page as the handler sees it *)

Definition Node := nat.

(** The document: which element an [aria-ref] names, the parent element of
    an element, and what [el.outerHTML] and [el.tagName] evaluate to. *)
Record Dom := {
  aria_ref : string -> option Node;
  parentElement : Node -> option Node;
  outerHTML : Node -> string;
  tagName : Node -> string;
}.

(** A locator is a query that is resolved each time it is used:
    [page.locator(`aria-ref=${ref}`)] and [locator.locator('..')]. *)
Inductive Locator :=
| refLocator (ref : string)
| parent_of (l : Locator).

Fixpoint resolve (d : Dom) (l : Locator) : option Node :=
  match l with
  | refLocator ref => aria_ref d ref
  | parent_of l' =>
      match resolve d l' with
      | Some el => parentElement d el
      | None => None
      end
  end.

Definition TimeoutError : Thrown :=
  Err "TimeoutError" "locator.evaluate: Timeout exceeded".

(** [await locator.evaluate(f)]: fails when the locator finds no element. *)
Definition evaluate {A} (d : Dom) (l : Locator) (f : Node -> A) : outcome A :=
  match resolve d l with
  | Some el => Returned (f el)
  | None => Threw TimeoutError
  end.

(** [s.toLowerCase()] on ASCII. *)
Definition lower (c : ascii) : ascii :=
  let n := nat_of_ascii c in
  if (65 <=? n) && (n <=? 90) then ascii_of_nat (n + 32) else c.

Fixpoint toLowerCase (s : string) : string :=
  match s with
  | EmptyString => EmptyString
  | String c s' => String (lower c) (toLowerCase s')
  end.

(** [tagName === 'body' || tagName === 'html'] *)
Definition is_top (tag : string) : bool :=
  String.eqb tag "body" || String.eqb tag "html".

(** [parentHTML.length > 8000] *)
Definition exceeds (html : string) : bool := 8000 <? String.length html.

Section WithPrettier.

(** [prettier.format(html, { parser: 'html' })] *)
Variable prettier_format : string -> outcome string.

Definition formatHTML (html : string) : outcome string := prettier_format html.

(** The [while (true)] loop (snapshot.ts 200-219); [fuel] bounds the number
    of iterations that are run, and [None] means the loop is still running
    after that many. *)
Fixpoint ascend (fuel : nat) (d : Dom) (currentElement : Locator) (currentHTML : string)
    : option (outcome string) :=
  match fuel with
  | 0 => None
  | S fuel' =>
      (* Try to get parent element *)
      let parentElement := parent_of currentElement in
      match evaluate d parentElement (outerHTML d) with
      | Threw e => Some (Threw e)
      | Returned parentHTML =>
          (* If parent HTML exceeds 8000 chars, return current HTML *)
          if exceeds parentHTML then Some (formatHTML currentHTML)
          else
            (* Update current element and HTML for next iteration *)
            let currentElement := parentElement in
            let currentHTML := parentHTML in
            (* Check if we've reached the top (body or html element) *)
            match evaluate d currentElement (fun el => toLowerCase (tagName d el)) with
            | Threw e => Some (Threw e)
            | Returned tagName =>
                if is_top tagName then Some (formatHTML currentHTML)
                else ascend fuel' d currentElement currentHTML
            end
      end
  end.

(** The callback that the handler passes to [runAndWait]
    (snapshot.ts 195-220). *)
Definition ancestorHTML (fuel : nat) (d : Dom) (ref : string) : option (outcome string) :=
  let locator := refLocator ref in
  match evaluate d locator (outerHTML d) with
  | Threw e => Some (Threw e)
  | Returned currentHTML => ascend fuel d locator currentHTML
  end.

End WithPrettier.

(** *** Ancestor chains *)

(** The [k]-th ancestor of element [el]; the 0-th is [el]. *)
Fixpoint ancestor (d : Dom) (el : Node) (k : nat) : option Node :=
  match k with
  | 0 => Some el
  | S k' =>
      match ancestor d el k' with
      | Some a => parentElement d a
      | None => None
      end
  end.

(** The loop goes on past an ancestor that is under the ceiling and is
    neither [body] nor [html]. *)
Definition passed (d : Dom) (a : Node) : Prop :=
  exceeds (outerHTML d a) = false /\ is_top (toLowerCase (tagName d a)) = false.

(** The loop stops at its [k]-th ancestor: there is none, or it exceeds the
    ceiling, or it is [body] or [html]. *)
Definition stops (d : Dom) (el : Node) (k : nat) : Prop :=
  match ancestor d el k with
  | None => True
  | Some a => exceeds (outerHTML d a) = true \/ is_top (toLowerCase (tagName d a)) = true
  end.

(** *** The resolution as the specification words it

    Ascend until the parent exceeds the ceiling, then return the last
    element under it, or until a root-level element is reached, whose
    serialization is returned regardless of size. *)
Section AsSpecified.

Variable prettier_format : string -> outcome string.

Fixpoint ascend_as_specified (fuel : nat) (d : Dom) (current : Node) : option (outcome string) :=
  match fuel with
  | 0 => None
  | S fuel' =>
      match parentElement d current with
      | None => Some (Threw TimeoutError)
      | Some parent =>
          if is_top (toLowerCase (tagName d parent))
          then Some (prettier_format (outerHTML d parent))
          else if exceeds (outerHTML d parent)
               then Some (prettier_format (outerHTML d current))
               else ascend_as_specified fuel' d parent
      end
  end.

Definition ancestorHTML_as_specified (fuel : nat) (d : Dom) (ref : string)
    : option (outcome string) :=
  match aria_ref d ref with
  | None => Some (Threw TimeoutError)
  | Some el => ascend_as_specified fuel d el
  end.

End AsSpecified.

(** *** Documents used in examples *)

Fixpoint replicate (n : nat) (c : ascii) : string :=
  match n with
  | 0 => EmptyString
  | S n' => String c (replicate n' c)
  end.

(** [<html><body>...<div>x</div></body></html>] with a [body] of more than
    8000 characters: element 0 is the [div] that [e1] names, 1 the [body],
    2 the [html]. *)
Definition big_body : Dom := {|
  aria_ref := fun ref => if String.eqb ref "e1" then Some 0 else None;
  parentElement := fun el =>
    match el with 0 => Some 1 | 1 => Some 2 | _ => None end;
  outerHTML := fun el =>
    match el with
    | 0 => "<div>x</div>"
    | 1 => "<body>" +:+ replicate 8000 "a" +:+ "<div>x</div></body>"
    | _ => "<html><body>" +:+ replicate 8000 "a" +:+ "<div>x</div></body></html>"
    end;
  tagName := fun el =>
    match el with 0 => "DIV" | 1 => "BODY" | _ => "HTML" end;
|}.

(** A parent query that keeps yielding small [div] elements: element [n]
    has parent [n + 1]. *)
Definition endless : Dom := {|
  aria_ref := fun _ => Some 0;
  parentElement := fun el => Some (S el);
  outerHTML := fun _ => "<div></div>";
  tagName := fun _ => "DIV";
|}.

(** A small well-formed document: [span] (named [e1]) in [p] in [div] in
    [body] in [html]. *)
Definition small_page : Dom := {|
  aria_ref := fun ref => if String.eqb ref "e1" then Some 0 else None;
  parentElement := fun el =>
    match el with 0 => Some 1 | 1 => Some 2 | 2 => Some 3 | 3 => Some 4 | _ => None end;
  outerHTML := fun el =>
    match el with
    | 0 => "<span>x</span>"
    | 1 => "<p><span>x</span></p>"
    | 2 => "<div><p><span>x</span></p></div>"
    | 3 => "<body><div><p><span>x</span></p></div></body>"
    | _ => "<html><body><div><p><span>x</span></p></div></body></html>"
    end;
  tagName := fun el =>
    match el with 0 => "SPAN" | 1 => "P" | 2 => "DIV" | 3 => "BODY" | _ => "HTML" end;
|}.

(** A formatter that leaves its input as it is. *)
Definition verbatim (html : string) : outcome string := Returned html.

End Ancestor.

(* ===================================================================== *)
(** ** [server.close] as [createServerWithTools] leaves it: server.ts 99-102 *)
(* ===================================================================== *)

Module ServerClose.

(** What the property [close] of the server object holds: the method of the
    SDK's [Server] class, or the arrow function assigned at server.ts 99. *)
Inductive CloseMethod := sdk_close | assigned_close.

Record Server := {
  server_name : string;
  server_version : string;
  close : CloseMethod;
}.

(** [new Server({ name, version }, ...)] *)
Definition new_Server (name version : string) : Server :=
  {| server_name := name; server_version := version; close := sdk_close |}.

(** [createServerWithTools]: the request handlers do not touch [close]; the
    assignment at line 99 does. *)
Definition createServerWithTools (name version : string) : Server :=
  let server := new_Server name version in
  {| server_name := server_name server; server_version := server_version server;
     close := assigned_close |}.

(** What a call of [close] makes happen. *)
Inductive CloseEvent :=
| entered_assigned_close    (* the arrow function of line 99 starts *)
| transport_closed          (* the SDK's [close] ran *)
| context_closed.           (* [context.close()] ran *)

(** [server.close()] with room for [stack] nested calls: the events in
    order and the way the call ends. The property [close] is looked up on
    the server object at each call. With no room left the call throws the
    [RangeError] of a stack overflow, which every pending [await] rethrows. *)
Fixpoint call_close (stack : nat) (server : Server) : list CloseEvent * outcome unit :=
  match stack with
  | 0 => ([], Threw (RangeError "Maximum call stack size exceeded"))
  | S stack' =>
      match close server with
      | sdk_close => ([transport_closed], Returned tt)
      | assigned_close =>
          (* await server.close(); *)
          match call_close stack' server with
          | (evs, Returned _) =>
              (* await context.close(); *)
              (entered_assigned_close :: evs ++ [context_closed], Returned tt)
          | (evs, Threw e) => (entered_assigned_close :: evs, Threw e)
          end
      end
  end.

End ServerClose.

(* ===================================================================== *)
(** ** More of the session: [close], and what every session keeps to     *)
(* ===================================================================== *)

Module Session.
Import Lifecycle.

(** The calls by which a session would start a browser of its own or open
    a page of its own. *)
Definition launches (c : Call) : bool :=
  match c with
  | chromium_launch _ | browser_newPage _ => true
  | _ => false
  end.

(** A body that never issues such a call, however its calls are answered. *)
Fixpoint attaches_only (m : Prog unit) : Prop :=
  match m with
  | Ret _ | Throw _ => True
  | Do _ k => attaches_only k
  | Await c k => launches c = false /\ forall o, attaches_only (k o)
  end.

(** No such call was issued and no suspended body will issue one. *)
Definition never_launched (w : World) : Prop :=
  Forall (fun c => launches c = false) (trace w) /\
  Forall (fun t => attaches_only (snd t)) (tasks w).

(** The console buffer is empty while no listener is registered. *)
Definition quiet (w : World) : Prop := handlers w = [] -> _console (this w) = [].



(** One call of [ensurePage], then five answers of an environment in which
    every call succeeds and the connection yields [b]. *)
Definition attach_to (b : Browser) : list Label :=
  let ok := answer 0 (obliging b) in
  [call_ensurePage; ok; ok; ok; ok; ok].

(** A browser that has no context. *)
Definition bare_browser : Browser := {| browser_id := 2; contexts := [] |}.

End Session.

(* ===================================================================== *)
(** ** Listing tools, listing and reading resources: server.ts 58-64, 88-97 *)
(* ===================================================================== *)

Module Registry.
Import Dispatch.


(** Resources. [resources/resource.ts] is not among the sources; the server
    uses the [uri] of a resource's schema and its [read], whose result it
    hands on as it is. *)
Section Resources.

Variable ResourceSchema : Type.
Variable uri : ResourceSchema -> string.
Variable ResourceContents : Type.

Record Resource := {
  resource_schema : ResourceSchema;
  read : string -> M (list ResourceContents);
}.

(** The [ListResourcesRequestSchema] handler (server.ts 62-64). *)
Definition listResources (resources : list Resource) : list ResourceSchema :=
  map resource_schema resources.

Definition at_uri (u : string) (resource : Resource) : bool :=
  String.eqb (uri (resource_schema resource)) u.

(** The [ReadResourceRequestSchema] handler (server.ts 88-97). *)
Definition readResource (resources : list Resource) (request_uri : string)
    : M (list ResourceContents) :=
  match List.find (at_uri request_uri) resources with
  | None => ret []
  | Some resource =>
      do contents <- read resource request_uri;
      ret contents
  end.

End Resources.

Arguments resource_schema {ResourceSchema ResourceContents} _.
Arguments read {ResourceSchema ResourceContents} _ _.
Arguments listResources {ResourceSchema ResourceContents} resources.
Arguments at_uri {ResourceSchema} uri {ResourceContents} u resource.
Arguments readResource {ResourceSchema} uri {ResourceContents} resources request_uri.

(** A resource whose [read] fails. *)
Definition unreadable (u : string) (e : Thrown) : Resource string string :=
  {| resource_schema := u; read := fun _ => throw e |}.

End Registry.

(* ===================================================================== *)
(** ** The REPL: repl-utils.ts, [browser_evaluate_playwright], pw-repl.js *)
(* ===================================================================== *)

Module Repl.

(** *** The bridge to the REPL subprocess: repl-utils.ts *)

Inductive MessageType := success | error.

Record ReplMessage := {
  timestamp : Z;                 (* Unix timestamp *)
  code : option string;          (* The code to be executed *)
  result : option string;        (* The result/output of the execution *)
  type : option MessageType;     (* The type of result *)
}.

Definition REPL_UTILS_PATH : string :=
  "/Users/galvered/Dev/checksum-customer-engineering/tools/repl.js".

(** A command handed to [execSync], with its timeout. *)
Definition Command : Type := string * Z.

(** The process as the bridge sees it: the commands run so far, and how the
    outside answers after the commands run so far: how [execSync] ends
    ([None]: the subprocess exited in time with status 0), what
    [readReplMessage] finds in [message.json] (it throws when the file is
    missing or is no JSON), and the clock. *)
Record Shell := {
  executed : list Command;
  execSync : list Command -> option Thrown;
  readReplMessage : list Command -> outcome ReplMessage;
  Date_now : list Command -> Z;
}.

Definition ran (c : Command) (sh : Shell) : Shell :=
  {| executed := executed sh ++ [c]; execSync := execSync sh;
     readReplMessage := readReplMessage sh; Date_now := Date_now sh |}.

Definition quote_char : ascii := ascii_of_nat 34.
Definition backslash : ascii := ascii_of_nat 92.
Definition newline : ascii := ascii_of_nat 10.

(** [codeToExecute.replace] (repl-utils.ts 48): a backslash goes before
    every double quote. *)
Fixpoint escape_quotes (s : string) : string :=
  match s with
  | EmptyString => EmptyString
  | String c s' =>
      if Ascii.eqb c quote_char
      then String backslash (String quote_char (escape_quotes s'))
      else String c (escape_quotes s')
  end.

(** The command line of [executePlaywrightCode] (repl-utils.ts 47-51). *)
Definition command_line (code : string) : string :=
  let codeToExecute := code +:+ String newline ";" in
  let codeToExecute := escape_quotes codeToExecute in
  "node " +:+ REPL_UTILS_PATH +:+ " " +:+ dquote +:+ codeToExecute +:+ dquote.

(** [a || b] on strings. *)
Definition or_else (a b : string) : string :=
  if String.eqb a EmptyString then b else a.

(** The message built in the [catch] clause (repl-utils.ts 60-65). *)
Definition error_message (now : Z) (code : string) (err : Thrown) : ReplMessage :=
  {| timestamp := now;
     code := Some code;
     result := Some (or_else (or_else (message err) (String_ err)) "Unknown error");
     type := Some error |}.

(** [executePlaywrightCode(code, timeout)] (repl-utils.ts 43-67). *)
Definition executePlaywrightCode (code : string) (timeout : Z) (sh : Shell)
    : ReplMessage * Shell :=
  let sh' := ran (command_line code, timeout) sh in
  match execSync sh (executed sh') with
  | None =>
      (* Read and return the message if execSync completes successfully. *)
      match readReplMessage sh (executed sh') with
      | Returned message => (message, sh')
      | Threw err => (error_message (Date_now sh (executed sh')) code err, sh')
      end
  | Some err =>
      (* In case of any error (including timeouts), return a message with error details. *)
      (error_message (Date_now sh (executed sh')) code err, sh')
  end.

(** [timeout: number = 60000] *)
Definition default_timeout : Z := 60000.

Definition health_check_code : string :=
  "console.log(" +:+ dquote +:+ "Repl Health Check" +:+ dquote +:+ ");".

Definition REPL_is_not_working : Thrown :=
  Err "Error"
    "REPL is not working. Make sure the browser is in repl mode with CLI mode turned on".

(** [replHealhCheck()] (repl-utils.ts 69-81). *)
Definition replHealhCheck (sh : Shell) : outcome bool * Shell :=
  let (execution, sh') := executePlaywrightCode health_check_code 3000 sh in
  match type execution with
  | Some success => (Returned true, sh')
  | _ => (Threw REPL_is_not_working, sh')
  end.

(** *** [getVariableStore] (repl-utils.ts 83-93) *)

Definition open_brace : ascii := ascii_of_nat 123.
Definition close_brace : ascii := ascii_of_nat 125.

(** The longest prefix of [s] that ends with a closing brace. *)
Fixpoint through_last_close (s : string) : option string :=
  match s with
  | EmptyString => None
  | String c s' =>
      match through_last_close s' with
      | Some m => Some (String c m)
      | None => if Ascii.eqb c close_brace then Some (String c EmptyString) else None
      end
  end.

(** [text.match(/{.*}/s)]: the match starts at the first opening brace that
    has a closing brace after it and, the star being greedy and the dot
    matching line ends, runs through the last closing brace. *)
Fixpoint match_braces (text : string) : option string :=
  match text with
  | EmptyString => None
  | String c s' =>
      if Ascii.eqb c open_brace then
        match through_last_close s' with
        | Some m => Some (String c m)
        | None => match_braces s'
        end
      else match_braces s'
  end.

Definition variable_store_code : string :=
  "console.log(Object.fromEntries(Object.values(variablesStore.store).map(v => [v.name, v.value])));".

Definition could_not_parse : Thrown := Err "Error" "Could not parse variable store".

Section WithJSON.

(** [JSON.parse] *)
Variable JSON_parse : string -> outcome Dispatch.Json.

Definition getVariableStore (sh : Shell) : outcome Dispatch.Json * Shell :=
  let (execution, sh') := executePlaywrightCode variable_store_code 3000 sh in
  match result execution with
  | None => (Threw could_not_parse, sh')
  | Some text =>
      match match_braces text with
      | None => (Threw could_not_parse, sh')
      | Some m => (JSON_parse m, sh')
      end
  end.

End WithJSON.

(** *** [browser_evaluate_playwright] (the common tools after server.ts,
    290-320) *)

Definition evaluatePlaywrightSchema : Dispatch.ZodObject := [("code", Dispatch.z_string)].

Definition evaluatePlaywright_schema : Dispatch.ToolSchema :=
  {| Dispatch.name := "browser_evaluate_playwright";
     Dispatch.description := "Evaluate Playwright code";
     Dispatch.inputSchema := evaluatePlaywrightSchema |}.

(** [result.result || 'Code executed successfully'] *)
Definition result_text (execution : ReplMessage) : string :=
  match result execution with
  | Some r => or_else r "Code executed successfully"
  | None => "Code executed successfully"
  end.

(** Its handler, which leaves the session alone and talks to the REPL. *)
Definition evaluatePlaywright (params : option Dispatch.Json) (sh : Shell)
    : outcome Dispatch.CallToolResult * Shell :=
  match Dispatch.parse evaluatePlaywrightSchema params with
  | Threw e => (Threw e, sh)
  | Returned validatedParams =>
      match replHealhCheck sh with
      | (Threw e, sh') => (Threw e, sh')
      | (Returned _, sh') =>
          let (execution, sh'') :=
            executePlaywrightCode (Dispatch.str validatedParams "code") default_timeout sh' in
          (Returned (Dispatch.plain (result_text execution)), sh'')
      end
  end.

(** *** Observations on strings *)

(** Every double quote of [s] stands right after a backslash. *)
Fixpoint quotes_escaped (after_backslash : bool) (s : string) : bool :=
  match s with
  | EmptyString => true
  | String c s' =>
      (if Ascii.eqb c quote_char then after_backslash else true)
      && quotes_escaped (Ascii.eqb c backslash) s'
  end.

(** Character [c] occurs in [s]. *)
Fixpoint occurs (c : ascii) (s : string) : bool :=
  match s with
  | EmptyString => false
  | String c' s' => Ascii.eqb c' c || occurs c s'
  end.

(** [{body}] *)
Definition braces (body : string) : string :=
  String open_brace (body +:+ String close_brace EmptyString).

(** *** Shells used in examples *)

Definition ETIMEDOUT : Thrown := Err "Error" "spawnSync /bin/sh ETIMEDOUT".

(** No REPL is there to answer. *)
Definition down : Shell :=
  {| executed := []; execSync := fun _ => Some ETIMEDOUT;
     readReplMessage := fun _ => Threw ETIMEDOUT; Date_now := fun _ => 0%Z |}.

(** *** The completer of the REPL: pw-repl.js 21-27 *)

Definition completions : list string := [".help"; ".exit"; ".load"; ".save"; "playwright"].

(** [c.startsWith(line)] *)
Definition startsWith (c line : string) : bool := String.prefix line c.

(** [completer(line)], over the completions known when it is called. *)
Definition completer (completions : list string) (line : string) : list string * string :=
  let hits := List.filter (fun c => startsWith c line) completions in
  (match hits with [] => completions | _ => hits end, line).

End Repl.

(* ===================================================================== *)
(** * Properties                                                          *)
(* ===================================================================== *)

(** ** The session lifecycle *)

Module LifecycleFacts.
Import Lifecycle.

Section WithURL.

Variable URL_canParse : string -> bool.
Variable env : ProcessEnv.

Lemma initialize_body_shape lo :
  exists k, initialize_body URL_canParse env lo = Await (logger (LString "createBrowser")) k
            /\ forall o, residual connecting (k o).
Proof.
  eexists; split; [reflexivity|].
  intros [[]|e]; cbn; [|constructor].
  destruct (truthy (PLAYWRIGHT_WS_ENDPOINT env)) as [ep|]; cbn.
  - destruct (URL_canParse ep); cbn; [|constructor].
    apply res_connect; [reflexivity|]. intros [b|e]; cbn; [|constructor].
    apply res_browser. destruct (head (contexts b)) as [ctx|]; cbn; [|constructor].
    apply res_await; try reflexivity. intros _. cbn.
    apply res_await; try reflexivity. intros [[]|e]; cbn; [|constructor].
    apply res_page.
  - apply res_log; try reflexivity. intros [[]|e]; cbn; [|constructor].
    apply res_connect; [reflexivity|]. intros [b|e]; cbn; [|constructor].
    apply res_browser. destruct (head (contexts b)) as [ctx|]; cbn; [|constructor].
    apply res_await; try reflexivity. intros _. cbn.
    apply res_await; try reflexivity. intros [[]|e]; cbn; [|constructor].
    apply res_page.
Qed.

Lemma ctx_frame_refl c : ctx_frame c c.
Proof. by repeat split. Qed.

Lemma world_eta w : with_handlers (handlers w ++ []) (with_this (this w) w) = w.
Proof. destruct w; cbn. by rewrite app_nil_r. Qed.

Lemma run_sync_residual ph m :
  residual ph m -> forall w, exists c' hs m',
    run_sync m w = (with_handlers (handlers w ++ hs) (with_this c' w), m') /\
    ctx_frame (this w) c' /\
    (ph = attached -> _browser c' = _browser (this w)) /\
    match m' with
    | Throw _ => hs = []
    | Await c k =>
        hs = [] /\ is_createBrowser c = false /\
        (ph <> connecting -> is_connection c = false) /\
        (forall o, residual (next ph c) (k o)) /\
        (ph = connected -> is_Some (_browser c'))
    | Ret _ =>
        ph <> connecting /\
        exists pg, _page c' = Some pg /\ hs = on_page pg /\
                   (ph = connected -> is_Some (_browser c'))
    | Do _ _ => False
    end.
Proof.
  induction 1 as [ph e|c k Hcb Hcn Hk _|c k Hcn Hk _|b m Hm IH|c k Hcb Hcn Hk _|p]; intros w.
  - exists (this w), [], (Throw e). cbn. rewrite world_eta.
    split_and!; auto using ctx_frame_refl.
  - exists (this w), [], (Await c k). cbn. rewrite world_eta, Hcn.
    split_and!; auto using ctx_frame_refl; done.
  - exists (this w), [], (Await c k). cbn. rewrite world_eta, Hcn.
    split_and!; auto using ctx_frame_refl; try done.
    by destruct c.
  - destruct (IH (exec (set_browser b) w)) as (c' & hs & m' & Hrun & (Hlo & Hco & Hip) & Hbr & Hend).
    exists c', hs, m'. cbn [run_sync]. rewrite Hrun.
    specialize (Hbr eq_refl). cbn in Hbr.
    refine (conj _ (conj _ (conj _ _))); [by destruct w|done|done|].
    destruct m' as [[]|e|?|c k]; [| |done|].
    + destruct Hend as (_ & pg & ? & ? & _). split; [done|].
      exists pg. rewrite Hbr. eauto.
    + done.
    + destruct Hend as (? & ? & Hc & ? & _).
      refine (conj _ (conj _ (conj _ (conj _ _)))); try done.
      all: intros _; first [by apply Hc | rewrite Hbr; eauto].
  - exists (this w), [], (Await c k). cbn. rewrite world_eta.
    split_and!; auto using ctx_frame_refl; done.
  - destruct p as [pg|]; cbn.
    + exists (with_page (Some pg) (this w)), (on_page pg), (Ret tt).
      refine (conj _ (conj _ (conj _ (conj _ _)))); try done.
      * destruct w; cbn. by rewrite <- !app_assoc.
      * exists pg. by split_and!.
    + exists (with_page None (this w)), [], (Throw (TypeError "Cannot read properties of undefined (reading 'on')")).
      refine (conj _ (conj _ (conj _ _))); try done.
      destruct w; cbn. by rewrite app_nil_r.
Qed.

Lemma Inv_initial lo : Inv lo (initial_world lo).
Proof.
  split; try done. by intros k1 k2 [].
Qed.

Lemma calls_snoc tr c :
  length (List.filter is_createBrowser (tr ++ [c]))
  = length (List.filter is_createBrowser tr) + (if is_createBrowser c then 1 else 0).
Proof. rewrite List.filter_app, length_app. cbn. by destruct (is_createBrowser c). Qed.

Lemma attempts_snoc tr c :
  length (List.filter is_connection (tr ++ [c]))
  = length (List.filter is_connection tr) + (if is_connection c then 1 else 0).
Proof. rewrite List.filter_app, length_app. cbn. by destruct (is_connection c). Qed.

Lemma Inv_ensurePage lo w : Inv lo w -> Inv lo (ensurePage URL_canParse env w).
Proof.
  intros [Hlo Hnew Hstale Hcr Hph Hks Hag].
  unfold ensurePage, _initialize.
  destruct (_initializePromise (this w)) as [p|] eqn:Hip.
  - (* the cached promise is returned *)
    specialize (Hnew p eq_refl).
    split; cbn; rewrite ?Hip; [exact Hlo|by intros ? [= <-]|exact Hstale|exact Hcr| | |].
    + unfold phase_ok in *. cbn. by rewrite Hip in *.
    + intros k [Hk| [<-|[]]]%in_app_iff; cbn.
      * apply Hks in Hk. by rewrite Hip in *.
      * split; [lia|]. by rewrite decide_True.
    + intros k1 k2 [H1|[<-|[]]]%in_app_iff [H2|[<-|[]]]%in_app_iff He; cbn in *; auto.
      * apply Hks in H1 as [_ H1]. rewrite Hip, He, decide_True in H1; done.
      * apply Hks in H2 as [_ H2]. rewrite Hip, <- He, decide_True in H2; done.
  - (* a new initialization starts *)
    destruct (initialize_body_shape (_launchOptions (this w))) as (k0 & -> & Hk0).
    unfold phase_ok in Hph. rewrite Hip in Hph. destruct Hph as (Hts & Hhs & Hat).
    destruct w as [[l b pg con ip] ps ts hs tr cs]; cbn in *. subst.
    split; cbn.
    + done.
    + intros ? [= <-]. rewrite length_app. cbn. lia.
    + intros q [[? Hq]|[-> _]]%lookup_snoc_Some; [|done].
      by apply Hstale in Hq.
    + unfold createBrowser_calls in *. cbn. rewrite calls_snoc, length_app. cbn. lia.
    + unfold phase_ok. cbn. rewrite list_lookup_middle by done.
      split; [done|]. exists (logger (LString "createBrowser")), k0, connecting.
      split_and!; try done.
      unfold connection_attempts in *. cbn. rewrite attempts_snoc, length_app. cbn. lia.
    + intros k [Hk|[<-|[]]]%in_app_iff; cbn.
      * apply Hks in Hk as [Hlt Hk]. cbn in *. rewrite length_app. split; [lia|].
        rewrite decide_False by (intros [=]; lia).
        rewrite decide_False in Hk by done. by rewrite lookup_app_l.
      * rewrite length_app. cbn. split; [lia|]. rewrite decide_True by done.
        by rewrite list_lookup_middle.
    + intros k1 k2 [H1|[<-|[]]]%in_app_iff [H2|[<-|[]]]%in_app_iff He; cbn in *; auto.
      * apply Hks in H1 as [H1 _]. cbn in *. lia.
      * apply Hks in H2 as [H2 _]. cbn in *. lia.
Qed.

Lemma wake_awaits p st c k : awaits (wake p st c k) = awaits k.
Proof. unfold wake. by destruct (_ && _). Qed.

Lemma wake_waiting p st c k :
  awaits k = p -> result k = None -> result (wake p st c k) = observe st c.
Proof.
  intros <- Hr. unfold wake. rewrite Nat.eqb_refl, bool_decide_true; done.
Qed.

Lemma wake_other p st c k : awaits k <> p -> wake p st c k = k.
Proof. intros H. unfold wake. by apply Nat.eqb_neq in H as ->. Qed.

Lemma Inv_resume lo p a w : Inv lo w -> Inv lo (resume p a w).
Proof.
  intros HI. unfold resume.
  pose proof HI as [Hlo Hnew Hstale Hcr Hph Hks Hag].
  unfold phase_ok in Hph.
  destruct (_initializePromise (this w)) as [p0|] eqn:Hip;
    [|by destruct Hph as (-> & _)].
  specialize (Hnew p0 eq_refl).
  destruct (promises w !! p0) as [[| |e]|] eqn:Hp0;
    [|by destruct Hph as (-> & _)..|done].
  destruct Hph as (Hhs & c0 & k0 & ph & Hts & Hk & Hat & Hbr).
  rewrite Hts. cbn.
  destruct (p0 =? p) eqn:E; [|done]. apply Nat.eqb_eq in E. subst p0.
  cbn. unfold drive.
  destruct (run_sync_residual ph (k0 (a c0)) (Hk _) (with_tasks [] w))
    as (c' & hs & m' & -> & (Hlo' & Hco' & Hip') & Hb & Hend).
  destruct w as [[l b pg con ip] ps ts hs0 tr cs]; cbn in *. subst.
  clear HI. unfold callers_ok, callers_agree in Hks, Hag. cbn in Hks, Hag.
  assert (Hwait : forall k, In k cs -> awaits k = p -> result k = None).
  { intros k [_ Hk']%Hks <-. rewrite decide_True in Hk' by done.
    by rewrite Hp0 in Hk'. }
  assert (Hdone : forall k, In k cs -> awaits k <> p ->
                        settled_result (ps !! awaits k) (result k)).
  { intros k [_ Hk']%Hks Hne. rewrite decide_False in Hk'; [done|congruence]. }
  assert (Hlt : forall k, In k cs -> awaits k < length ps).
  { by intros k [? _]%Hks. }
  assert (Hsettle : forall st c'' hs'' tr'' ts'',
    _initializePromise c'' = Some p -> st <> Pending ->
    let w' := settle p st {| this := c''; promises := ps; tasks := ts'';
                              handlers := hs''; trace := tr''; callers := cs |} in
    callers_ok w' /\ callers_agree w').
  { intros st c'' hs'' tr'' ts'' Hc'' Hst. cbn. split.
    - intros k' (k & <- & Hin)%in_map_iff. cbn.
      rewrite wake_awaits, length_insert, Hc''. split; [auto|].
      destruct (decide (awaits k = p)) as [E|Hne].
      + rewrite decide_True, E, list_lookup_insert_eq by (congruence || lia). cbn.
        apply wake_waiting; auto.
      + rewrite decide_False, wake_other, list_lookup_insert_ne by congruence. auto.
    - intros k1' k2' (k1 & <- & H1)%in_map_iff (k2 & <- & H2)%in_map_iff. cbn.
      rewrite !wake_awaits. intros He.
      destruct (decide (awaits k1 = p)) as [E1|E1].
      + assert (E2 : awaits k2 = p) by congruence.
        rewrite (wake_waiting _ _ _ k1), (wake_waiting _ _ _ k2); auto.
      + rewrite !wake_other by congruence. auto. }
  destruct m' as [[]|e|?|c k]; [| |done|].
  - (* the body ended: the promise fulfils *)
    destruct Hend as (Hph & pg' & Hpg & -> & Hb').
    destruct (Hsettle Fulfilled c' (on_page pg') tr [] Hip' ltac:(done)) as [Hks' Hag'].
    split; cbn; rewrite ?Hip', ?length_insert; try done.
    + congruence.
    + intros q [(-> & ? & _)|(Hq & ?)]%list_lookup_insert_Some; [done|].
      by apply Hstale.
    + unfold phase_ok. cbn. rewrite Hip', list_lookup_insert_eq by lia.
      split_and!; [done|rewrite length_insert; destruct ph; try done; cbn in Hat; lia|].
      exists pg'. split_and!; [done..|].
      destruct ph; [done|auto|]. rewrite Hb by done. auto.
  - (* the body threw: the promise rejects *)
    subst hs.
    destruct (Hsettle (Rejected e) c' [] tr [] Hip' ltac:(done)) as [Hks' Hag'].
    split; cbn; rewrite ?Hip', ?length_insert; try done.
    + congruence.
    + intros q [(-> & ? & _)|(Hq & ?)]%list_lookup_insert_Some; [done|].
      by apply Hstale.
    + unfold phase_ok. cbn. rewrite Hip', list_lookup_insert_eq by lia.
      split_and!; [done..|rewrite length_insert; destruct ph; cbn in Hat; lia].
  - (* the body suspends on its next call *)
    destruct Hend as (-> & Hcb & Hcn & Hk' & Hb').
    split; cbn; rewrite ?Hip'; try done.
    + congruence.
    + unfold createBrowser_calls. cbn. rewrite calls_snoc, Hcb. lia.
    + unfold phase_ok. cbn. rewrite Hip', Hp0. split; [done|].
      exists c, k, (next ph c). split_and!; [done..| |].
      * unfold connection_attempts. cbn. rewrite attempts_snoc.
        destruct ph; cbn in *; [destruct (is_connection c); lia|rewrite Hcn by done; lia..].
      * destruct ph; cbn; [by destruct (is_connection c)|auto|].
        intros _. rewrite Hb by done. auto.
    + intros k1 Hin. cbn. rewrite Hip'. split; [auto|].
      destruct (decide (awaits k1 = p)) as [E|Hne].
      * rewrite decide_True, E, Hp0 by congruence. cbn. auto.
      * rewrite decide_False by congruence. auto.
Qed.

Lemma with_handlers_id w : with_handlers (handlers w) w = w.
Proof. by destruct w. Qed.

Lemma emit_no_handlers pg ev w : handlers w = [] -> emit pg ev w = w.
Proof.
  intros H. destruct w; cbn in *; subst. by destruct ev.
Qed.

Lemma handlers_reset w : handlers (_reset w) = handlers w.
Proof. unfold _reset. by destruct (_browser (this w)). Qed.

Lemma handlers_listener ev w : handlers (listener ev w) = handlers w.
Proof.
  destruct ev as [m|f|]; cbn; [done| |apply handlers_reset].
  by destruct (parentFrame f).
Qed.

Lemma emit_other_page pg pg0 ev w :
  handlers w = on_page pg0 -> pg0 <> pg -> emit pg ev w = w.
Proof.
  intros H Hne. apply Nat.eqb_neq in Hne.
  destruct w; cbn in *; subst. unfold emit, listens, on_page. cbn. rewrite Hne.
  destruct ev; cbn; rewrite ?Hne; done.
Qed.

Lemma emit_on_page pg ev w :
  handlers w = on_page pg ->
  emit pg ev w = match ev with
                 | ev_close => with_handlers [] (_reset w)
                 | _ => listener ev w
                 end.
Proof.
  intros H. unfold emit, listens. rewrite H. cbn. rewrite Nat.eqb_refl. cbn.
  destruct ev; cbn; try done.
  rewrite handlers_reset, H. cbn. by rewrite Nat.eqb_refl.
Qed.

Lemma Inv_emit lo pg ev w : Inv lo w -> Inv lo (emit pg ev w).
Proof.
  intros HI.
  pose proof HI as [Hlo Hnew Hstale Hcr Hph Hks Hag].
  unfold phase_ok in Hph.
  destruct (_initializePromise (this w)) as [p|] eqn:Hip;
    [|by rewrite emit_no_handlers by apply Hph].
  specialize (Hnew p eq_refl).
  destruct (promises w !! p) as [[| |e]|] eqn:Hp;
    [by rewrite emit_no_handlers by apply Hph| |
     by rewrite emit_no_handlers by apply Hph|done].
  destruct Hph as (Hts & Hat & pg0 & Hpg & Hhs & [b Hb]).
  destruct (decide (pg0 = pg)) as [->|Hne]; [|by rewrite (emit_other_page pg pg0)].
  rewrite emit_on_page by done.
  destruct w as [[l b' pg' con ip] ps ts hs tr cs]; cbn in *. subst.
  clear HI. unfold callers_ok, callers_agree in Hks, Hag. cbn in Hks, Hag.
  destruct ev as [m|f|]; cbn.
  - split; cbn; try done.
    + by intros ? [= <-].
    + unfold phase_ok. cbn. rewrite Hp. split_and!; [done..|]. exists pg. eauto.
  - destruct (parentFrame f); split; cbn; try done.
    all: try by intros ? [= <-].
    all: try (unfold phase_ok; cbn; rewrite Hp; split_and!; [done..|]; exists pg; by eauto).
  - split; cbn; try done.
    + intros q Hq. pose proof (Hstale q Hq) as [= <-]. congruence.
    + unfold createBrowser_calls in *. cbn. rewrite calls_snoc. cbn. lia.
    + unfold phase_ok, connection_attempts in *. cbn. rewrite attempts_snoc. cbn.
      split_and!; [done..|lia].
    + intros k Hk. cbn. destruct (Hks k Hk) as [Hlt Hr]. split; [done|].
      rewrite decide_False by done.
      destruct (decide (Some p = Some (awaits k))) as [[= <-]|_]; [|done].
      rewrite Hr, Hp. cbn. eauto.
Qed.

Lemma Inv_step lo w l : Inv lo w -> Inv lo (step URL_canParse env w l).
Proof.
  destruct l; cbn; auto using Inv_ensurePage, Inv_resume, Inv_emit.
Qed.

Lemma run_cons l ls w :
  run URL_canParse env (l :: ls) w = run URL_canParse env ls (step URL_canParse env w l).
Proof. reflexivity. Qed.

Lemma run_app ls1 ls2 w :
  run URL_canParse env (ls1 ++ ls2) w
  = run URL_canParse env ls2 (run URL_canParse env ls1 w).
Proof. apply fold_left_app. Qed.

Lemma Inv_run lo ls : forall w, Inv lo w -> Inv lo (run URL_canParse env ls w).
Proof.
  induction ls as [|l ls IH]; intros w HI; [done|].
  rewrite run_cons. apply IH, Inv_step, HI.
Qed.

Lemma Inv_reachable lo ls : Inv lo (run URL_canParse env ls (initial_world lo)).
Proof. apply Inv_run, Inv_initial. Qed.

(** A page carries listeners only while the session is ready on it. *)
Lemma listening_means_ready lo w pg name :
  Inv lo w -> In (pg, name) (handlers w) ->
  exists p b,
    _initializePromise (this w) = Some p /\ promises w !! p = Some Fulfilled /\
    _page (this w) = Some pg /\ _browser (this w) = Some b /\
    handlers w = on_page pg /\ tasks w = [].
Proof.
  intros HI Hin. pose proof (inv_phase _ _ HI) as Hph. unfold phase_ok in Hph.
  destruct (_initializePromise (this w)) as [p|] eqn:Hcur;
    [|by destruct Hph as (_ & Hhs & _); rewrite Hhs in Hin].
  destruct (promises w !! p) as [[| |e]|] eqn:Hp;
    [by destruct Hph as (Hhs & _); rewrite Hhs in Hin| |
     by destruct Hph as (_ & Hhs & _); rewrite Hhs in Hin|done].
  destruct Hph as (Hts & _ & pg0 & Hpg & Hhs & [b Hb]).
  assert (pg0 = pg) as ->.
  { rewrite Hhs in Hin. cbn in Hin.
    by destruct Hin as [[= ->]|[[= ->]|[[= ->]|[]]]]. }
  exists p, b. by split_and!.
Qed.

(** X1. At most one initialization is in flight: in every reachable world
    at most one body of [_initialize] is suspended. *)
Lemma at_most_one_initialization_in_flight lo ls :
  length (tasks (run URL_canParse env ls (initial_world lo))) <= 1.
Proof.
  pose proof (inv_phase _ _ (Inv_reachable lo ls)) as Hph. unfold phase_ok in Hph.
  destruct (_initializePromise _) as [p|]; [|destruct Hph as (-> & _); cbn; lia].
  destruct (promises _ !! p) as [[| |e]|];
    [|destruct Hph as (-> & _); cbn; lia..|done].
  destruct Hph as (_ & c & k & ph & -> & _). cbn. lia.
Qed.

Lemma caller_outcome lo w k :
  Inv lo w -> In k (callers w) ->
  match promises w !! awaits k with
  | Some Pending => result k = None
  | Some Fulfilled => exists pg, result k = Some (Returned (Some pg))
  | Some (Rejected e) => result k = Some (Threw e)
  | None => False
  end.
Proof.
  intros [_ _ _ _ Hph Hks _] Hk. destruct (Hks k Hk) as [Hlt Hr].
  apply lookup_lt_is_Some in Hlt as [st Hst]. rewrite Hst in Hr |- *.
  destruct (decide _) as [Hcur|_]; [|by destruct st].
  unfold phase_ok in Hph. rewrite Hcur, Hst in Hph. rewrite Hr.
  destruct st; cbn; try done.
  destruct Hph as (_ & _ & pg & -> & _). eauto.
Qed.

Lemma callers_run_sync m : forall w, callers (fst (run_sync m w)) = callers w.
Proof.
  induction m as [| |s m IH|]; intros w; try done.
  cbn. rewrite IH. by destruct s.
Qed.

Lemma map_awaits_wake p st c ks : map awaits (map (wake p st c) ks) = map awaits ks.
Proof.
  rewrite List.map_map. apply List.map_ext. intros k. apply wake_awaits.
Qed.

Lemma awaits_drive p m w : map awaits (callers (drive p m w)) = map awaits (callers w).
Proof.
  unfold drive. pose proof (callers_run_sync m w) as H.
  destruct (run_sync m w) as [w' [| | |]]; cbn in *; rewrite <- H;
    auto using map_awaits_wake.
Qed.

Lemma awaits_listener ev w : callers (listener ev w) = callers w.
Proof.
  destruct ev as [?|f|]; cbn; [done|by destruct (parentFrame f)|].
  unfold _reset. by destruct (_browser (this w)).
Qed.

Lemma awaits_step w l :
  exists extra, map awaits (callers (step URL_canParse env w l))
                = map awaits (callers w) ++ extra.
Proof.
  destruct l as [|p a|pg ev]; cbn.
  - unfold ensurePage, _initialize.
    destruct (_initializePromise (this w)) as [p|]; cbn.
    + eexists. by rewrite List.map_app.
    + eexists. by rewrite List.map_app.
  - exists []. rewrite app_nil_r. unfold resume.
    destruct (List.find _ _) as [[p' [| | |c k]]|]; try done.
    by rewrite awaits_drive.
  - exists []. rewrite app_nil_r. unfold emit.
    assert (H : forall (hs : list (Page * EventName)) w,
      callers (fold_left (fun w _ => listener ev w) hs w) = callers w).
    { induction hs as [|h hs IH]; intros w0; [done|]. cbn. by rewrite IH, awaits_listener. }
    destruct ev; cbn; by rewrite H.
Qed.

Lemma awaits_run ls : forall w,
  exists extra, map awaits (callers (run URL_canParse env ls w))
                = map awaits (callers w) ++ extra.
Proof.
  induction ls as [|l ls IH]; intros w.
  - exists []. cbn. by rewrite app_nil_r.
  - rewrite run_cons. destruct (IH (step URL_canParse env w l)) as [e2 ->].
    destruct (awaits_step w l) as [e1 ->].
    exists (e1 ++ e2). by rewrite app_assoc.
Qed.

Lemma earlier_caller ls w i k' :
  i < length (callers w) ->
  callers (run URL_canParse env ls w) !! i = Some k' ->
  exists k, callers w !! i = Some k /\ awaits k = awaits k'.
Proof.
  intros Hi Hk'. destruct (awaits_run ls w) as [extra He].
  apply lookup_lt_is_Some in Hi as [k Hk]. exists k. split; [done|].
  assert (H : (map awaits (callers (run URL_canParse env ls w))) !! i = Some (awaits k)).
  { rewrite He. apply lookup_app_l_Some.
    change (map awaits (callers w)) with (awaits <$> callers w).
    by rewrite list_lookup_fmap, Hk. }
  change (map awaits ?l) with (awaits <$> l) in H.
  rewrite list_lookup_fmap, Hk' in H. by injection H.
Qed.

(** C2. Calls of [ensurePage] issued before the first initialization
    completes (promise 0 is still pending in [w]): [createBrowser] was
    invoked exactly once and at most one connection was attempted; every
    caller awaits promise 0; and whatever happens next ([ls']), any two of
    these callers hold the same result: nothing while promise 0 is pending,
    the same page once it fulfilled, the same rejection once it rejected. *)
Theorem concurrent_callers_share_one_initialization lo ls ls' :
  let w := run URL_canParse env ls (initial_world lo) in
  let w' := run URL_canParse env ls' w in
  promises w !! 0 = Some Pending ->
  createBrowser_calls w = 1 /\
  connection_attempts w <= 1 /\
  (forall k, In k (callers w) -> awaits k = 0 /\ result k = None) /\
  (forall i j k1 k2,
      i < length (callers w) -> j < length (callers w) ->
      callers w' !! i = Some k1 -> callers w' !! j = Some k2 ->
      awaits k1 = 0 /\ awaits k2 = 0 /\ result k1 = result k2 /\
      match promises w' !! 0 with
      | Some Fulfilled => exists pg, result k1 = Some (Returned (Some pg))
      | Some (Rejected e) => result k1 = Some (Threw e)
      | _ => result k1 = None
      end).
Proof.
  intros w w' H0.
  pose proof (Inv_reachable lo ls) as HI. fold w in HI.
  pose proof (Inv_run lo ls' w HI) as HI'. fold w' in HI'.
  pose proof (inv_stale _ _ HI 0 H0) as Hcur.
  pose proof (inv_newest _ _ HI 0 Hcur) as Hlen.
  assert (Hall : forall k, In k (callers w) -> awaits k = 0).
  { intros k Hk. destruct (inv_callers _ _ HI k Hk) as [Hlt _]. lia. }
  split_and!.
  - by rewrite (inv_created _ _ HI).
  - pose proof (inv_phase _ _ HI) as Hph. unfold phase_ok in Hph.
    rewrite Hcur, H0 in Hph. destruct Hph as (_ & ? & ? & ? & _ & _ & Hat & _). lia.
  - intros k Hk. split; [auto|].
    pose proof (caller_outcome lo w k HI Hk) as Ho. by rewrite (Hall k Hk), H0 in Ho.
  - intros i j k1 k2 Hi Hj H1 H2.
    destruct (earlier_caller ls' w i k1 Hi H1) as (k1' & Hk1' & E1).
    destruct (earlier_caller ls' w j k2 Hj H2) as (k2' & Hk2' & E2).
    apply list_elem_of_lookup_2, list_elem_of_In in Hk1', Hk2'.
    apply list_elem_of_lookup_2, list_elem_of_In in H1, H2.
    rewrite (Hall _ Hk1') in E1. rewrite (Hall _ Hk2') in E2.
    split_and!; [done..| |].
    + apply (inv_agree _ _ HI'); auto. congruence.
    + pose proof (caller_outcome lo w' k1 HI' H1) as Ho. rewrite <- E1 in Ho.
      by destruct (promises w' !! 0) as [[]|].
Qed.

Lemma rejected_step lo w l p e :
  Inv lo w ->
  _initializePromise (this w) = Some p -> promises w !! p = Some (Rejected e) ->
  let w' := step URL_canParse env w l in
  this w' = this w /\ promises w' = promises w /\ trace w' = trace w /\
  tasks w' = tasks w /\ handlers w' = handlers w /\
  (callers w' = callers w \/
   callers w' = callers w ++ [{| awaits := p; result := Some (Threw e) |}]).
Proof.
  intros HI Hcur Hp. pose proof (inv_phase _ _ HI) as Hph.
  unfold phase_ok in Hph. rewrite Hcur, Hp in Hph. destruct Hph as (Hts & Hhs & _).
  destruct l as [|q a|pg ev]; cbn.
  - unfold ensurePage, _initialize. rewrite Hcur. cbn. rewrite Hp. cbn. auto 10.
  - unfold resume. rewrite Hts. cbn. auto 10.
  - rewrite emit_no_handlers by done. auto 10.
Qed.

(** X3. Once the cached promise rejected, nothing un-caches it: whatever
    happens next, the same rejected promise stays in [_initializePromise],
    no call is issued any more and every caller of [ensurePage] gets the
    same rejection. *)
Theorem failed_initialization_is_never_retried lo ls ls' p e :
  let w := run URL_canParse env ls (initial_world lo) in
  let w' := run URL_canParse env ls' w in
  _initializePromise (this w) = Some p -> promises w !! p = Some (Rejected e) ->
  _initializePromise (this w') = Some p /\
  promises w' = promises w /\
  trace w' = trace w /\
  (forall k, In k (callers w') -> awaits k = p -> result k = Some (Threw e)).
Proof.
  intros w w' Hcur Hp.
  pose proof (Inv_reachable lo ls) as HI. fold w in HI.
  assert (H : this w' = this w /\ promises w' = promises w /\ trace w' = trace w).
  { subst w'. clearbody w. revert w HI Hcur Hp.
    induction ls' as [|l ls' IH]; intros w HI Hcur Hp; [done|].
    rewrite run_cons.
    destruct (rejected_step lo w l p e HI Hcur Hp) as (Ht & Hps & Htr & _).
    destruct (IH (step URL_canParse env w l)) as (-> & -> & ->);
      [by apply Inv_step|congruence..|done]. }
  destruct H as (Ht & Hps & Htr). rewrite Ht, Hps, Htr. split_and!; try done.
  intros k Hk Hk'.
  pose proof (caller_outcome lo w' k (Inv_run lo ls' w HI) Hk) as Ho.
  by rewrite Hk', Hps, Hp in Ho.
Qed.

(** C4. When the page that the session listens to emits [close], the
    session goes from ready to uninitialized: [_reset] brings [this] back
    to the state of a new [Context], with no initialization promise, no
    page, no browser and an empty console buffer. No listener and
    no suspended body is left, [browser.close()] was issued on the browser
    held so far and nothing waits for it. The next [ensurePage] runs a
    fresh initialization: a new pending promise is cached and
    [createBrowser] is invoked once more. *)
Theorem page_close_resets_session lo ls pg :
  let w := run URL_canParse env ls (initial_world lo) in
  let w' := step URL_canParse env w (page_emits pg ev_close) in
  let w'' := step URL_canParse env w' call_ensurePage in
  In (pg, close) (handlers w) ->
  session_state w = Some (ready pg) /\
  session_state w' = Some uninitialized /\
  this w' = new_Context lo /\
  handlers w' = [] /\ tasks w' = [] /\ promises w' = promises w /\
  (exists b, _browser (this w) = Some b /\ trace w' = trace w ++ [browser_close b]) /\
  session_state w'' = Some initializing /\
  _initializePromise (this w'') = Some (length (promises w)) /\
  promises w'' = promises w ++ [Pending] /\
  trace w'' = trace w' ++ [logger (LString "createBrowser")] /\
  createBrowser_calls w'' = S (createBrowser_calls w).
Proof.
  intros w w' w'' Hin.
  pose proof (Inv_reachable lo ls) as HI. fold w in HI.
  destruct (listening_means_ready lo w pg close HI Hin)
    as (p & b & Hcur & Hp & Hpg & Hb & Hhs & Hts).
  pose proof (inv_lo _ _ HI) as Hlo.
  subst w'' w'. cbn [step]. rewrite emit_on_page by done.
  unfold ensurePage, _initialize, session_state.
  clearbody w. destruct w as [[l b' pg' con ip] ps ts hs tr cs].
  cbn -[initialize_body] in *. subst.
  match goal with
  | |- context [initialize_body _ _ ?x] =>
      destruct (initialize_body_shape x) as (k0 & -> & _)
  end.
  cbn. rewrite Hp, list_lookup_middle by done. cbn.
  split_and!; try done.
  - eauto.
  - unfold createBrowser_calls. cbn. rewrite !calls_snoc. cbn. lia.
Qed.

Lemma emit_keeps_listeners pg ev w :
  handlers w = on_page pg -> ev <> ev_close ->
  handlers (emit pg ev w) = on_page pg.
Proof.
  intros H Hev. rewrite emit_on_page by done.
  destruct ev; [| |done]; by rewrite handlers_listener.
Qed.

Lemma emissions_keep_listeners pg evs : forall w,
  handlers w = on_page pg -> Forall (fun ev => ev <> ev_close) evs ->
  handlers (run URL_canParse env (emissions pg evs) w) = on_page pg.
Proof.
  induction evs as [|ev evs IH]; intros w H Hevs; [done|].
  inversion_clear Hevs. cbn [emissions map]. rewrite run_cons. cbn [step].
  apply IH; [by apply emit_keeps_listeners|done].
Qed.

Lemma console_without_top_level_navigation pg evs : forall w,
  handlers w = on_page pg -> Forall (fun ev => ev <> ev_close) evs ->
  no_top_level_navigation evs ->
  _console (this (run URL_canParse env (emissions pg evs) w))
  = _console (this w) ++ messages evs.
Proof.
  induction evs as [|ev evs IH]; intros w H Hevs Hno.
  - cbn. by rewrite app_nil_r.
  - inversion_clear Hevs. inversion_clear Hno.
    cbn [emissions map]. rewrite run_cons. cbn [step].
    rewrite IH; [|by apply emit_keeps_listeners|done..].
    rewrite emit_on_page by done.
    destruct ev as [m|f|]; [| |done]; cbn.
    + by rewrite <- app_assoc.
    + cbn in *. by destruct (parentFrame f).
Qed.

(** C5. With the session listening to page [pg], let the page emit console
    messages and frame navigations [evs]. Without a top-level navigation
    among them, every message is appended and nothing is removed, whatever
    child frames navigate. With a top-level navigation (a frame without
    parent frame), the buffer holds exactly the messages that came after
    the last one. *)
Theorem console_cleared_by_top_level_navigation_only lo ls pg evs :
  let w := run URL_canParse env ls (initial_world lo) in
  let w' := run URL_canParse env (emissions pg evs) w in
  In (pg, framenavigated) (handlers w) ->
  Forall (fun ev => ev <> ev_close) evs ->
  (no_top_level_navigation evs ->
   _console (this w') = _console (this w) ++ messages evs) /\
  (forall before frame after,
      evs = before ++ ev_framenavigated frame :: after ->
      parentFrame frame = None -> no_top_level_navigation after ->
      _console (this w') = messages after).
Proof.
  intros w w' Hin Hevs.
  assert (Hhs : handlers w = on_page pg).
  { by destruct (listening_means_ready lo w pg framenavigated
                   (Inv_reachable lo ls) Hin) as (_ & _ & _ & _ & _ & _ & ? & _). }
  split.
  - intros Hno. by apply console_without_top_level_navigation.
  - intros before frame after -> Htop Hno.
    apply Forall_app in Hevs as [Hb Ha]. inversion_clear Ha.
    subst w'. unfold emissions. rewrite List.map_app, run_app. cbn [map].
    rewrite run_cons. cbn [step].
    pose proof (emissions_keep_listeners pg before w Hhs Hb) as Hhs1.
    fold (emissions pg before) (emissions pg after).
    rewrite console_without_top_level_navigation;
      [|by apply emit_keeps_listeners|done..].
    rewrite emit_on_page by done. cbn. by rewrite Htop.
Qed.

(** C8, as amended. [createBrowser] first announces itself to the logger.
    Then exactly one branch is taken, in this order: with
    [PLAYWRIGHT_WS_ENDPOINT] set, [chromium.connect] to that endpoint with
    the launch options as [launch-options] parameter; otherwise with
    [useCDP], the note "createBrowser useCDP" to the logger and
    [chromium.connectOverCDP] to [CHROME_DEBUGGING_PORT] or 9222 on
    127.0.0.1; otherwise [chromium.launch] with the options. At most one
    connection is attempted and its outcome is the outcome of
    [createBrowser]: no branch falls back to another. Only the
    debugging-port branch logs a note of its own. *)
Theorem createBrowser_strategy (pe : ProcessEnv) lo useCDP (a : Answer) :
  let announce := logger (LString "createBrowser") in
  let note := logger (LString "createBrowser useCDP") in
  let r := calls_and_result a (createBrowser URL_canParse pe lo useCDP) in
  length (chosen (fst r)) <= 1 /\
  match a announce with
  | Threw e => r = ([announce], Threw e)
  | Returned _ =>
      match truthy (PLAYWRIGHT_WS_ENDPOINT pe) with
      | Some endpoint =>
          if URL_canParse endpoint then
            let c := chromium_connect {| ws_endpoint := endpoint;
                                         ws_launch_options := JSON_stringify lo |} in
            r = ([announce; c], a c)
          else r = ([announce], Threw (TypeError "Invalid URL"))
      | None =>
          if useCDP then
            let c := chromium_connectOverCDP
                       ("http://127.0.0.1:" +:+
                        default "9222" (truthy (CHROME_DEBUGGING_PORT pe))) in
            match a note with
            | Returned _ => r = ([announce; note; c], a c)
            | Threw e => r = ([announce; note], Threw e)
            end
          else
            let c := chromium_launch (with_default_channel lo) in
            r = ([announce; c], a c)
      end
  end.
Proof.
  cbn. unfold createBrowser. cbn.
  destruct (a (logger (LString "createBrowser"))) as [[]|e]; cbn; [|split; [lia|done]].
  destruct (truthy (PLAYWRIGHT_WS_ENDPOINT pe)) as [endpoint|]; cbn.
  - destruct (URL_canParse endpoint); cbn; [|split; [lia|done]].
    destruct (a (chromium_connect _)); cbn; split; (lia || done).
  - destruct useCDP; cbn.
    + destruct (a (logger (LString "createBrowser useCDP"))) as [[]|e]; cbn;
        [|split; [lia|done]].
      destruct (a (chromium_connectOverCDP _)); cbn; split; (lia || done).
    + destruct (a (chromium_launch _)); cbn; split; (lia || done).
Qed.

End WithURL.

(** C1. The first [ensurePage] finds no browser on the debugging port; a
    second [ensurePage] follows. The rejected promise is still the cached
    one, [createBrowser] was invoked once and one connection was attempted
    in all, and both callers got the same rejection. *)
Theorem failed_initialization_stays_cached :
  let refused := answer 0 (refusing ECONNREFUSED) in
  let w := run (fun _ => true) no_env
             [call_ensurePage; refused; refused; refused; call_ensurePage]
             (initial_world None) in
  promises w = [Rejected ECONNREFUSED] /\
  _initializePromise (this w) = Some 0 /\
  createBrowser_calls w = 1 /\
  connection_attempts w = 1 /\
  map result (callers w) = [Some (Threw ECONNREFUSED); Some (Threw ECONNREFUSED)].
Proof. vm_compute. by repeat split. Qed.

(** C2 at an instance: two callers, then the logger answers, and the first
    initialization is still pending. *)
Lemma concurrent_callers_witness :
  let w := run (fun _ => true) no_env
             [call_ensurePage; call_ensurePage; answer 0 (obliging chrome)]
             (initial_world None) in
  promises w !! 0 = Some Pending /\ createBrowser_calls w = 1.
Proof.
  split; [reflexivity|].
  exact (proj1 (concurrent_callers_share_one_initialization (fun _ => true) no_env None
                  [call_ensurePage; call_ensurePage; answer 0 (obliging chrome)] []
                  eq_refl)).
Defined.

(** C4 at an instance: a ready session on page 7, which then closes. *)
Lemma page_close_witness :
  let w := run (fun _ => true) no_env until_ready (initial_world None) in
  In (7, close) (handlers w) /\
  this (step (fun _ => true) no_env w (page_emits 7 ev_close)) = new_Context None.
Proof.
  assert (H : In (7, close)
                (handlers (run (fun _ => true) no_env until_ready (initial_world None)))).
  { cbn. auto. }
  split; [exact H|].
  exact (proj1 (proj2 (proj2
           (page_close_resets_session (fun _ => true) no_env None until_ready 7 H)))).
Defined.

(** C5 at an instance: a ready session on page 7; message, top-level
    navigation, message, child-frame navigation, message. *)
Lemma console_witness :
  let w := run (fun _ => true) no_env until_ready (initial_world None) in
  let evs := [ev_console "a"; ev_framenavigated (main_frame "top"); ev_console "b";
              ev_framenavigated (child_frame "ad" (main_frame "top")); ev_console "c"] in
  In (7, framenavigated) (handlers w) /\
  Forall (fun ev => ev <> ev_close) evs /\
  _console (this (run (fun _ => true) no_env (emissions 7 evs) w)) = ["b"; "c"].
Proof.
  assert (H : In (7, framenavigated)
                (handlers (run (fun _ => true) no_env until_ready (initial_world None)))).
  { cbn. auto. }
  assert (Hevs : Forall (fun ev => ev <> ev_close)
            [ev_console "a"; ev_framenavigated (main_frame "top"); ev_console "b";
             ev_framenavigated (child_frame "ad" (main_frame "top")); ev_console "c"]).
  { repeat constructor; discriminate. }
  split; [exact H|]. split; [exact Hevs|].
  refine (proj2 (console_cleared_by_top_level_navigation_only (fun _ => true) no_env None
                   until_ready 7 _ H Hevs)
            [ev_console "a"] (main_frame "top")
            [ev_console "b"; ev_framenavigated (child_frame "ad" (main_frame "top"));
             ev_console "c"] eq_refl eq_refl _).
  repeat constructor.
Defined.

(** C8. With a remote endpoint configured, and with nothing configured and
    [useCDP] off, different strategies are chosen while the logger receives
    the same single entry: the log does not tell which strategy was
    chosen. *)
Lemma remote_and_launch_leave_the_same_log :
  let remote := calls_and_result (obliging chrome)
                  (createBrowser (fun _ => true) remote_env None false) in
  let launch := calls_and_result (obliging chrome)
                  (createBrowser (fun _ => true) no_env None false) in
  chosen (fst remote) = [remote_endpoint] /\
  chosen (fst launch) = [fresh_launch] /\
  logged (fst remote) = [LString "createBrowser"] /\
  logged (fst launch) = [LString "createBrowser"].
Proof. vm_compute. by repeat split. Qed.

End LifecycleFacts.

(** ** Tool dispatch *)

Module DispatchFacts.
Import Dispatch.

Lemma append_empty_r s : s +:+ EmptyString = s.
Proof.
  induction s as [|c s IH]; [done|].
  change (String c s +:+ EmptyString) with (String c (s +:+ EmptyString)).
  by rewrite IH.
Qed.

Lemma append_assoc s1 s2 s3 : (s1 +:+ s2) +:+ s3 = s1 +:+ s2 +:+ s3.
Proof.
  induction s1 as [|c s1 IH]; [done|].
  change (String c (s1 +:+ s2) +:+ s3 = String c (s1 +:+ s2 +:+ s3)).
  change (String c ((s1 +:+ s2) +:+ s3) = String c (s1 +:+ s2 +:+ s3)).
  by rewrite IH.
Qed.

(** [String(error)] ends with the message of the error. *)
Lemma String_carries_message e : exists prefix, String_ e = prefix +:+ message e.
Proof.
  destruct e as [n m|issues]; cbn; [|by exists EmptyString].
  destruct (String.eqb n EmptyString); [by exists EmptyString|].
  destruct (String.eqb m EmptyString) eqn:E.
  - apply String.eqb_eq in E as ->. exists n. cbn. by rewrite append_empty_r.
  - exists (n +:+ ": "). cbn. by rewrite append_assoc.
Qed.

(** C6. [callTool] always returns a result and never throws. When no tool
    has the requested name the result is an error result whose text holds
    that name, and the host is left untouched. When the handler of the tool
    throws, the result is an error result whose text is [String(error)],
    which ends with the message of the error; otherwise it is the result of
    the handler. *)
Theorem callTool_returns_error_results tools request h :
  exists r h',
    callTool tools request h = (Returned r, h') /\
    match List.find (named (req_name request)) tools with
    | None =>
        h' = h /\ isError r = Some true /\
        content r = [text_content ("Tool " +:+ dquote +:+ req_name request
                                     +:+ dquote +:+ " not found")]
    | Some tool =>
        match handle tool (req_arguments request) h with
        | (Returned result, h0) => r = result /\ h' = h0
        | (Threw error, h0) =>
            h' = h0 /\ isError r = Some true /\
            content r = [text_content (String_ error)] /\
            exists prefix, String_ error = prefix +:+ message error
        end
    end.
Proof.
  unfold callTool.
  destruct (List.find _ tools) as [tool|]; [|by eexists _, _].
  unfold try_catch.
  destruct (handle tool (req_arguments request) h) as [[result|error] h0].
  - by eexists _, _.
  - eexists _, _. split; [reflexivity|]. cbn.
    split_and!; [done..|apply String_carries_message].
Qed.

Lemma find_counted n tools :
  List.find (named n) (map counted tools)
  = option_map counted (List.find (named n) tools).
Proof.
  induction tools as [|t tools IH]; [done|]. cbn.
  unfold named at 1 3. cbn. by destruct (String.eqb _ _).
Qed.

Lemma validating_handler_throws tool params e h :
  validates_first tool ->
  parse (inputSchema (schema tool)) params = Threw e ->
  handle tool params h = (Threw e, h).
Proof.
  intros [body Hbody] Hparse. rewrite Hbody. unfold mbind. by rewrite Hparse.
Qed.

(** The modelled tools that validate do so first. *)
Lemma validating_tools_validate_first : Forall validates_first validating.
Proof. repeat constructor; by eexists. Qed.

(** C7, as amended. For a tool whose handler begins with
    [schema.parse(params)] and arguments that its schema rejects with [e]:
    the dispatch invokes the handler, once, as the counter shows; the
    handler throws [e] before it asks anything of the page; the dispatch
    returns the error result with [String(e)] as text. *)
Theorem invalid_arguments_rejected_inside_handler tools request tool e h :
  List.find (named (req_name request)) tools = Some tool ->
  validates_first tool ->
  parse (inputSchema (schema tool)) (req_arguments request) = Threw e ->
  callTool (map counted tools) request h
  = (Returned (error_result (String_ e)), count_invocation h).
Proof.
  intros Hfind Hval Hparse. unfold callTool.
  rewrite find_counted, Hfind. cbn. unfold try_catch.
  by rewrite (validating_handler_throws tool _ e).
Qed.

(** C7, as amended, at an instance: [browser_navigate] called with [{}]. *)
Lemma invalid_arguments_witness :
  let request := {| req_name := "browser_navigate"; req_arguments := Some (JObject []) |} in
  let e := ZodErr [{| issue_path := "url"; issue_expected := "string";
                      issue_received := "undefined" |}] in
  parse navigateSchema (req_arguments request) = Threw e /\
  callTool (map counted [pressKey; navigate false]) request fresh_host
  = (Returned (error_result (String_ e)), count_invocation fresh_host).
Proof.
  split; [reflexivity|].
  apply (invalid_arguments_rejected_inside_handler [pressKey; navigate false]
           {| req_name := "browser_navigate"; req_arguments := Some (JObject []) |}
           (navigate false)).
  - reflexivity.
  - eexists. intros params. reflexivity.
  - reflexivity.
Defined.

(** C7. [browser_navigate] is called without [url]: the schema rejects the
    arguments, and the handler is invoked all the same, the counter going
    from 0 to 1. *)
Lemma handler_invoked_on_invalid_arguments :
  let request := {| req_name := "browser_navigate"; req_arguments := Some (JObject []) |} in
  let after := snd (callTool [counted (navigate false)] request fresh_host) in
  (exists e, parse (inputSchema (schema (navigate false))) (req_arguments request) = Threw e) /\
  invocations fresh_host = 0 /\
  invocations after = 1.
Proof. cbn. split; [eauto|done]. Qed.

End DispatchFacts.

(** ** The ancestor-HTML ascent *)

Module AncestorFacts.
Import Ancestor.

Section WithPrettier.

Variable prettier_format : string -> outcome string.

Lemma ancestor_front d el k :
  ancestor d el (S k)
  = match parentElement d el with
    | Some p => ancestor d p k
    | None => None
    end.
Proof.
  induction k as [|k IH]; [by cbn; destruct (parentElement d el)|].
  change (ancestor d el (S (S k)))
    with (match ancestor d el (S k) with Some a => parentElement d a | None => None end).
  rewrite IH. by destruct (parentElement d el).
Qed.

(** One iteration of the loop. *)
Lemma ascend_last fuel d L c html :
  resolve d L = Some c ->
  ascend prettier_format (S fuel) d L html
  = match parentElement d c with
    | None => Some (Threw TimeoutError)
    | Some p =>
        if exceeds (outerHTML d p) then Some (formatHTML prettier_format html)
        else if is_top (toLowerCase (tagName d p))
             then Some (formatHTML prettier_format (outerHTML d p))
             else ascend prettier_format fuel d (parent_of L) (outerHTML d p)
    end.
Proof.
  intros HL. cbn [ascend]. unfold evaluate. cbn [resolve]. rewrite HL.
  destruct (parentElement d c) as [p|]; [|done].
  by destruct (exceeds (outerHTML d p)).
Qed.

(** One iteration past an ancestor that the loop passes. *)
Lemma ascend_step fuel d L c p html :
  resolve d L = Some c -> parentElement d c = Some p -> passed d p ->
  ascend prettier_format (S fuel) d L html
  = ascend prettier_format fuel d (parent_of L) (outerHTML d p).
Proof.
  intros HL Hp [Hsmall Htag].
  by rewrite (ascend_last fuel d L c), Hp, Hsmall, Htag.
Qed.

Lemma ascend_passes d n : forall fuel L c,
  resolve d L = Some c ->
  (forall k, 1 <= k <= n -> exists a, ancestor d c k = Some a /\ passed d a) ->
  exists a L',
    ancestor d c n = Some a /\ resolve d L' = Some a /\
    ascend prettier_format (n + fuel) d L (outerHTML d c)
    = ascend prettier_format fuel d L' (outerHTML d a).
Proof.
  induction n as [|n IH]; intros fuel L c HL Hpass.
  - by exists c, L.
  - destruct (IH (S fuel) L c HL) as (a & L' & Ha & HL' & Hrun).
    { intros k Hk. apply Hpass. lia. }
    destruct (Hpass (S n)) as (b & Hb & Hpb); [lia|].
    exists b, (parent_of L'). cbn [ancestor] in Hb |- *. rewrite Ha in Hb |- *.
    split_and!; [done|by cbn; rewrite HL'|].
    replace (S n + fuel) with (n + S fuel) by lia. rewrite Hrun.
    by apply (ascend_step fuel d L' a b).
Qed.

(** C3, as amended. Let the ancestors 1 to [n] of the referenced element be
    under the ceiling and neither [body] nor [html]. If ancestor [n + 1]
    exceeds 8000 characters, the HTML of ancestor [n] is returned (of the
    referenced element itself for [n = 0]), also when ancestor [n + 1] is
    [body] or [html]. If ancestor [n + 1] is [body] or [html] and under
    the ceiling, its HTML is returned. *)
Theorem ancestorHTML_resolution d ref el n fuel :
  aria_ref d ref = Some el ->
  (forall k, 1 <= k <= n -> exists a, ancestor d el k = Some a /\ passed d a) ->
  n < fuel ->
  (forall last a,
      ancestor d el n = Some last -> ancestor d el (S n) = Some a ->
      exceeds (outerHTML d a) = true ->
      ancestorHTML prettier_format fuel d ref
      = Some (formatHTML prettier_format (outerHTML d last))) /\
  (forall a,
      ancestor d el (S n) = Some a ->
      exceeds (outerHTML d a) = false ->
      is_top (toLowerCase (tagName d a)) = true ->
      ancestorHTML prettier_format fuel d ref
      = Some (formatHTML prettier_format (outerHTML d a))).
Proof.
  intros Href Hpass Hfuel.
  assert (Hrun : exists last L,
    ancestor d el n = Some last /\ resolve d L = Some last /\
    ancestorHTML prettier_format fuel d ref
    = ascend prettier_format (fuel - n) d L (outerHTML d last)).
  { destruct (ascend_passes d n (fuel - n) (refLocator ref) el Href Hpass)
      as (last & L & Hlast & HL & Hrun).
    exists last, L. split_and!; [done..|].
    unfold ancestorHTML, evaluate. cbn. rewrite Href.
    replace fuel with (n + (fuel - n)) at 1 by lia. done. }
  destruct Hrun as (last & L & Hlast & HL & ->).
  destruct (fuel - n) as [|rest] eqn:E; [lia|].
  rewrite (ascend_last rest d L last) by done.
  cbn [ancestor]. rewrite Hlast.
  split.
  - intros ? a [= <-] -> Hex. by rewrite Hex.
  - intros a -> Hex Htop. by rewrite Hex, Htop.
Qed.

Lemma ascend_terminates d n : forall L c html,
  resolve d L = Some c -> stops d c (S n) ->
  exists r, forall fuel, n < fuel -> ascend prettier_format fuel d L html = Some r.
Proof.
  induction n as [|n IH]; intros L c html HL Hstop;
    unfold stops in Hstop; rewrite ancestor_front in Hstop;
    destruct (parentElement d c) as [p|] eqn:Hp.
  - cbn [ancestor] in Hstop.
    destruct (exceeds (outerHTML d p)) eqn:Hex.
    + exists (formatHTML prettier_format html). intros [|fuel] Hf; [lia|].
      by rewrite (ascend_last fuel d L c), Hp, Hex.
    + destruct Hstop as [?|Htop]; [congruence|].
      exists (formatHTML prettier_format (outerHTML d p)). intros [|fuel] Hf; [lia|].
      by rewrite (ascend_last fuel d L c), Hp, Hex, Htop.
  - exists (Threw TimeoutError). intros [|fuel] Hf; [lia|].
    by rewrite (ascend_last fuel d L c), Hp.
  - destruct (exceeds (outerHTML d p)) eqn:Hex.
    { exists (formatHTML prettier_format html). intros [|fuel] Hf; [lia|].
      by rewrite (ascend_last fuel d L c), Hp, Hex. }
    destruct (is_top (toLowerCase (tagName d p))) eqn:Htop.
    { exists (formatHTML prettier_format (outerHTML d p)). intros [|fuel] Hf; [lia|].
      by rewrite (ascend_last fuel d L c), Hp, Hex, Htop. }
    destruct (IH (parent_of L) p (outerHTML d p)) as [r Hr].
    { cbn [resolve]. by rewrite HL. }
    { exact Hstop. }
    exists r. intros [|fuel] Hf; [lia|].
    rewrite (ascend_last fuel d L c), Hp, Hex, Htop by done.
    apply Hr. lia.
  - exists (Threw TimeoutError). intros [|fuel] Hf; [lia|].
    by rewrite (ascend_last fuel d L c), Hp.
Qed.

Lemma ascend_returns_only_at_a_stop d fuel : forall L c html r,
  resolve d L = Some c ->
  ascend prettier_format fuel d L html = Some r ->
  exists n, n < fuel /\ stops d c (S n).
Proof.
  induction fuel as [|fuel IH]; intros L c html r HL Hr; [done|].
  rewrite (ascend_last fuel d L c) in Hr by done.
  destruct (parentElement d c) as [p|] eqn:Hp.
  - destruct (exceeds (outerHTML d p)) eqn:Hex.
    { exists 0. split; [lia|]. unfold stops. rewrite ancestor_front, Hp.
      cbn [ancestor]. auto. }
    destruct (is_top (toLowerCase (tagName d p))) eqn:Htop.
    { exists 0. split; [lia|]. unfold stops. rewrite ancestor_front, Hp.
      cbn [ancestor]. auto. }
    destruct (IH (parent_of L) p (outerHTML d p) r) as (n & Hn & Hstop).
    { cbn [resolve]. by rewrite HL. }
    { exact Hr. }
    exists (S n). split; [lia|]. unfold stops in *.
    by rewrite ancestor_front, Hp.
  - exists 0. split; [lia|]. unfold stops. by rewrite ancestor_front, Hp.
Qed.

(** C9, as amended. The loop has no cap. It returns, with a number of
    iterations that is enough, exactly when the ascent stops at some
    ancestor: one that is missing, exceeds the ceiling, or is [body] or
    [html]. *)
Theorem ascent_terminates_exactly_when_it_stops d ref el :
  aria_ref d ref = Some el ->
  (exists r n, forall fuel, n < fuel -> ancestorHTML prettier_format fuel d ref = Some r)
  <-> (exists n, stops d el (S n)).
Proof.
  intros Href. unfold ancestorHTML, evaluate. cbn. rewrite Href. split.
  - intros (r & n & Hr).
    destruct (ascend_returns_only_at_a_stop d (S n) (refLocator ref) el _ r Href (Hr (S n) ltac:(lia)))
      as (m & _ & Hm).
    eauto.
  - intros (n & Hstop).
    destruct (ascend_terminates d n (refLocator ref) el (outerHTML d el) Href Hstop) as [r Hr].
    eauto.
Qed.

End WithPrettier.

Lemma endless_never_returns fuel : forall L c html,
  resolve endless L = Some c ->
  ascend verbatim fuel endless L html = None.
Proof.
  assert (Hsmall : exceeds "<div></div>" = false) by (vm_compute; reflexivity).
  assert (Htag : is_top (toLowerCase "DIV") = false) by (vm_compute; reflexivity).
  induction fuel as [|fuel IH]; intros L c html HL; [done|].
  rewrite (ascend_last verbatim fuel endless L c) by done.
  change (parentElement endless c) with (Some (S c)). cbv beta iota.
  change (outerHTML endless (S c)) with "<div></div>".
  change (tagName endless (S c)) with "DIV".
  rewrite Hsmall, Htag.
  apply (IH (parent_of L) (S c)). cbn [resolve]. by rewrite HL.
Qed.

(** C9. On a chain whose parent query keeps yielding small [div] elements
    the loop returns after no number of iterations. *)
Lemma unbounded_ascent_on_endless_chain :
  ~ exists fuel r, ancestorHTML verbatim fuel endless "e1" = Some r.
Proof.
  intros (fuel & r & Hr). unfold ancestorHTML, evaluate in Hr.
  cbn [resolve aria_ref endless] in Hr.
  by rewrite (endless_never_returns fuel (refLocator "e1") 0) in Hr.
Qed.

(** C3. The parent of the referenced [div] is a [body] of more than 8000
    characters: the ascent has reached a root-level element, and the code
    returns the [div], where the resolution as specified returns the
    [body]. *)
Lemma oversized_root_is_not_returned :
  parentElement big_body 0 = Some 1 /\
  is_top (toLowerCase (tagName big_body 1)) = true /\
  ancestorHTML verbatim 3 big_body "e1" = Some (Returned (outerHTML big_body 0)) /\
  ancestorHTML_as_specified verbatim 3 big_body "e1"
  = Some (Returned (outerHTML big_body 1)) /\
  outerHTML big_body 0 <> outerHTML big_body 1.
Proof. vm_compute. repeat split. discriminate. Qed.

(** C3, as amended, at an instance: [span] in [p] in [div] in [body], all
    small; the [body] is returned. *)
Lemma ancestorHTML_witness :
  aria_ref small_page "e1" = Some 0 /\
  ancestorHTML verbatim 4 small_page "e1"
  = Some (Returned "<body><div><p><span>x</span></p></div></body>").
Proof.
  split; [reflexivity|].
  refine (proj2 (ancestorHTML_resolution verbatim small_page "e1" 0 2 4 eq_refl _ _)
            3 eq_refl eq_refl eq_refl).
  - intros k Hk. assert (k = 1 \/ k = 2) as [->| ->] by lia.
    + exists 1. repeat split; vm_compute; reflexivity.
    + exists 2. repeat split; vm_compute; reflexivity.
  - lia.
Defined.

(** C9, as amended, at an instance: on the small page the ascent stops at
    the third ancestor. *)
Lemma ascent_terminates_witness :
  aria_ref small_page "e1" = Some 0 /\
  exists r n, forall fuel, n < fuel -> ancestorHTML verbatim fuel small_page "e1" = Some r.
Proof.
  split; [reflexivity|].
  apply (proj2 (ascent_terminates_exactly_when_it_stops verbatim small_page "e1" 0 eq_refl)).
  exists 2. right. vm_compute. reflexivity.
Defined.

End AncestorFacts.

(** ** Closing the server *)

Module ServerCloseFacts.
Import ServerClose.

(** C10. On a server made by [createServerWithTools], [close] is the
    assigned function, which calls [server.close], itself, first: with
    room for [stack] nested calls it is entered [stack] times, for every
    [stack], and ends with the stack overflow. Neither the SDK's [close]
    nor [context.close()] is ever reached. *)
Theorem assigned_close_calls_itself name version stack :
  let server := createServerWithTools name version in
  let run := call_close stack server in
  fst run = repeat entered_assigned_close stack /\
  snd run = Threw (RangeError "Maximum call stack size exceeded") /\
  ~ In transport_closed (fst run) /\
  ~ In context_closed (fst run).
Proof.
  cbn. 
  assert (H : call_close stack (createServerWithTools name version)
              = (repeat entered_assigned_close stack,
                 Threw (RangeError "Maximum call stack size exceeded"))).
  { induction stack as [|stack IH]; [done|]. cbn in *. by rewrite IH. }
  rewrite H. cbn. split_and!; try done.
  all: by intros [=]%repeat_spec.
Qed.

End ServerCloseFacts.

(** ** More of the session *)

Module SessionFacts.
Import Lifecycle LifecycleFacts Session.

Section WithURL.

Variable URL_canParse : string -> bool.
Variable env : ProcessEnv.

Lemma ensurePage_cached w p :
  _initializePromise (this w) = Some p ->
  ensurePage URL_canParse env w
  = with_callers
      (callers w ++ [{| awaits := p;
                        result := observe (default Pending (promises w !! p)) (this w) |}]) w.
Proof.
  intros H. unfold ensurePage, _initialize. by rewrite H.
Qed.

Lemma ensurePage_fresh w :
  _initializePromise (this w) = None ->
  exists k,
    (forall o, residual connecting (k o)) /\
    ensurePage URL_canParse env w
    = {| this := with_initializePromise (Some (length (promises w))) (this w);
         promises := promises w ++ [Pending];
         tasks := tasks w ++ [(length (promises w), Await (logger (LString "createBrowser")) k)];
         handlers := handlers w;
         trace := trace w ++ [logger (LString "createBrowser")];
         callers := callers w ++ [{| awaits := length (promises w); result := None |}] |}.
Proof.
  intros H. unfold ensurePage, _initialize. rewrite H.
  destruct (initialize_body_shape URL_canParse env (_launchOptions (this w)))
    as (k & -> & Hk).
  exists k. split; [done|]. cbn. by rewrite list_lookup_middle.
Qed.

(** X4. [ensurePage] starts an initialization exactly when no promise is
    cached: then it caches a new pending promise and invokes
    [createBrowser], whose first call goes out at once. With a promise
    cached, whatever its state, it issues no call and changes nothing but
    the list of callers, to which it adds one that awaits that promise. *)
Theorem ensurePage_initializes_only_when_nothing_is_cached w :
  let w' := ensurePage URL_canParse env w in
  match _initializePromise (this w) with
  | Some p =>
      this w' = this w /\ promises w' = promises w /\ tasks w' = tasks w /\
      handlers w' = handlers w /\ trace w' = trace w /\
      createBrowser_calls w' = createBrowser_calls w /\
      map awaits (callers w') = map awaits (callers w) ++ [p]
  | None =>
      _initializePromise (this w') = Some (length (promises w)) /\
      promises w' = promises w ++ [Pending] /\
      length (tasks w') = S (length (tasks w)) /\
      trace w' = trace w ++ [logger (LString "createBrowser")] /\
      createBrowser_calls w' = S (createBrowser_calls w) /\
      map awaits (callers w') = map awaits (callers w) ++ [length (promises w)]
  end.
Proof.
  cbn. destruct (_initializePromise (this w)) as [p|] eqn:H.
  - rewrite (ensurePage_cached w p H). cbn. by rewrite List.map_app.
  - destruct (ensurePage_fresh w H) as (k & _ & ->). cbn.
    unfold createBrowser_calls. cbn.
    rewrite calls_snoc, length_app, List.map_app. cbn. split_and!; try done; lia.
Qed.

(** X2. In every reachable world [createBrowser] was invoked once for each
    initialization promise made, no more connections were attempted than
    there were invocations, and only the newest promise can be pending. *)
Theorem one_createBrowser_call_per_initialization lo ls :
  let w := run URL_canParse env ls (initial_world lo) in
  createBrowser_calls w = length (promises w) /\
  connection_attempts w <= createBrowser_calls w /\
  (forall q, promises w !! q = Some Pending -> S q = length (promises w)).
Proof.
  intros w. pose proof (Inv_reachable URL_canParse env lo ls) as HI. fold w in HI.
  clearbody w. split_and!.
  - apply (inv_created _ _ HI).
  - rewrite (inv_created _ _ HI).
    pose proof (inv_phase _ _ HI) as Hph. unfold phase_ok in Hph.
    destruct (_initializePromise (this w)) as [p|]; [|by destruct Hph as (_ & _ & ?)].
    destruct (promises w !! p) as [[| |e]|]; [| | |done].
    + destruct Hph as (_ & ? & ? & ? & _ & _ & ? & _). lia.
    + by destruct Hph as (_ & ? & _).
    + by destruct Hph as (_ & _ & ?).
  - intros q Hq. apply (inv_newest _ _ HI), (inv_stale _ _ HI), Hq.
Qed.

(** *** The session never launches a browser *)

Lemma initialize_body_attaches_only lo :
  attaches_only (initialize_body URL_canParse env lo).
Proof.
  cbn. split; [done|]. intros [[]|e]; cbn; [|done].
  destruct (truthy (PLAYWRIGHT_WS_ENDPOINT env)) as [ep|]; cbn.
  - destruct (URL_canParse ep); cbn; [|done].
    split; [done|]. intros [b|e]; cbn; [|done].
    destruct (head (contexts b)) as [ctx|]; cbn; [|done].
    split; [done|]. intros _. cbn. split; [done|]. intros [[]|e]; cbn; [|done].
    by destruct (head (pages ctx)).
  - split; [done|]. intros [[]|e]; cbn; [|done].
    split; [done|]. intros [b|e]; cbn; [|done].
    destruct (head (contexts b)) as [ctx|]; cbn; [|done].
    split; [done|]. intros _. cbn. split; [done|]. intros [[]|e]; cbn; [|done].
    by destruct (head (pages ctx)).
Qed.

Lemma never_launched_ext w w' :
  trace w' = trace w -> tasks w' = tasks w -> never_launched w -> never_launched w'.
Proof. unfold never_launched. by intros -> ->. Qed.

Lemma run_sync_attaches m : forall w,
  attaches_only m ->
  trace (fst (run_sync m w)) = trace w /\ tasks (fst (run_sync m w)) = tasks w /\
  attaches_only (snd (run_sync m w)).
Proof.
  induction m as [| |s m IH|]; intros w Hm; try done.
  cbn. destruct (IH (exec s w) Hm) as (-> & -> & ?). by destruct s.
Qed.

Lemma drive_never_launched p m w :
  attaches_only m -> never_launched w -> never_launched (drive p m w).
Proof.
  intros Hm [Htr Hts]. unfold drive.
  destruct (run_sync_attaches m w Hm) as (Etr & Ets & Hm').
  destruct (run_sync m w) as [w' m']. cbn in *.
  destruct m' as [[]|e|s k|c k]; unfold never_launched; cbn; rewrite ?Etr, ?Ets; try done.
  destruct Hm' as [Hc Hk]. split; apply Forall_app; split; try done.
  all: by repeat constructor.
Qed.

Lemma listener_never_launched ev w : never_launched w -> never_launched (listener ev w).
Proof.
  intros [Htr Hts]. destruct ev as [m|f|]; cbn; [done|by destruct (parentFrame f)|].
  unfold _reset. destruct (_browser (this w)); [|done].
  split; [|done]. cbn. apply Forall_app. split; [done|]. by repeat constructor.
Qed.

Lemma step_never_launched w l :
  never_launched w -> never_launched (step URL_canParse env w l).
Proof.
  intros H. destruct l as [|p a|pg ev]; cbn.
  - unfold ensurePage, _initialize.
    destruct (_initializePromise (this w)); [done|].
    apply (never_launched_ext (drive (length (promises w))
             (initialize_body URL_canParse env (_launchOptions (this w)))
             (with_promises (promises w ++ [Pending]) w))); [done..|].
    apply drive_never_launched; [apply initialize_body_attaches_only|done].
  - unfold resume.
    destruct (List.find _ (tasks w)) as [[p' m]|] eqn:Hf; [|done].
    apply find_some in Hf as [Hin _].
    destruct H as [Htr Hts].
    pose proof (proj1 (List.Forall_forall _ _) Hts _ Hin) as Hm. cbn in Hm.
    destruct m as [| | |c k]; try done.
    apply drive_never_launched; [apply Hm|].
    split; [done|]. cbn. clear -Hts.
    induction Hts as [|t ts Ht _ IH]; cbn; [done|].
    destruct (negb _); [by constructor|done].
  - unfold emit.
    assert (Hfold : forall (hs : list (Page * EventName)) w0,
      never_launched w0 -> never_launched (fold_left (fun w _ => listener ev w) hs w0)).
    { induction hs as [|h hs IH]; intros w0 H0; [done|].
      cbn. by apply IH, listener_never_launched. }
    specialize (Hfold (List.filter (listens pg ev) (handlers w)) w H).
    by destruct ev.
Qed.

(** X7. The session only ever attaches to a browser that is running
    already: whatever is called, answered or emitted, no call of
    [chromium.launch] and no call of [browser.newPage] is issued, and the
    strategy of a fresh launch is never the one chosen. *)
Theorem session_never_launches_a_browser lo ls :
  let w := run URL_canParse env ls (initial_world lo) in
  Forall (fun c => launches c = false) (trace w) /\
  ~ In fresh_launch (chosen (trace w)).
Proof.
  intros w.
  assert (Hrun : forall w0, never_launched w0 ->
                            never_launched (run URL_canParse env ls w0)).
  { induction ls as [|l ls IH]; intros w0 H0; [done|].
    rewrite run_cons. by apply IH, step_never_launched. }
  destruct (Hrun (initial_world lo)) as [H _]; [by split|]. fold w in H.
  split; [done|].
  unfold chosen. intros (c & Hc & Hin)%in_flat_map.
  pose proof (proj1 (List.Forall_forall _ _) H c Hc) as Hl.
  destruct c; cbn in *; try done; destruct Hin as [|[]]; done.
Qed.

(** *** The console buffer and the listeners *)

Lemma quiet_step lo w l :
  Inv lo w -> quiet w -> quiet (step URL_canParse env w l).
Proof.
  intros HI HQ. pose proof (inv_phase _ _ HI) as Hph. unfold phase_ok in Hph.
  destruct l as [|p a|pg ev]; cbn.
  - destruct (_initializePromise (this w)) as [p|] eqn:Hcur.
    + by rewrite (ensurePage_cached w p Hcur).
    + destruct (ensurePage_fresh w Hcur) as (k & _ & ->). exact HQ.
  - unfold resume.
    destruct (_initializePromise (this w)) as [p0|] eqn:Hcur;
      [|by destruct Hph as (-> & _)].
    destruct (promises w !! p0) as [[| |e]|] eqn:Hp0;
      [|by destruct Hph as (-> & _)..|done].
    destruct Hph as (Hhs & c0 & k0 & ph & Hts & Hk & _).
    rewrite Hts. cbn. destruct (p0 =? p); [|done]. cbn. unfold drive.
    destruct (run_sync_residual ph (k0 (a c0)) (Hk _) (with_tasks [] w))
      as (c' & hs & m' & -> & (_ & Hco & _) & _ & Hend).
    specialize (HQ Hhs). cbn in Hco.
    intros _. destruct m' as [[]|e|?|c k]; cbn; congruence.
  - destruct (_initializePromise (this w)) as [p|] eqn:Hcur;
      [|by rewrite emit_no_handlers by apply Hph].
    destruct (promises w !! p) as [[| |e]|] eqn:Hp;
      [by rewrite emit_no_handlers by apply Hph| |
       by rewrite emit_no_handlers by apply Hph|done].
    destruct Hph as (_ & _ & pg0 & _ & Hhs & _).
    destruct (decide (pg0 = pg)) as [->|Hne]; [|by rewrite (emit_other_page pg pg0)].
    rewrite emit_on_page by done.
    destruct ev as [m|f|].
    + intros H. by rewrite handlers_listener, Hhs in H.
    + intros H. by rewrite handlers_listener, Hhs in H.
    + intros _. unfold _reset. by destruct (_browser (this w)).
Qed.

Lemma quiet_run lo ls : forall w,
  Inv lo w -> quiet w -> quiet (run URL_canParse env ls w).
Proof.
  induction ls as [|l ls IH]; intros w HI HQ; [done|].
  rewrite run_cons. apply IH; [by apply Inv_step|by apply (quiet_step lo)].
Qed.

(** X8. The console buffer holds messages only while the session is ready:
    in every reachable world in which the session is uninitialized,
    initializing or failed, [_console] is empty. *)
Theorem console_is_empty_unless_ready lo ls :
  let w := run URL_canParse env ls (initial_world lo) in
  match session_state w with
  | Some (ready _) => True
  | _ => _console (this w) = []
  end.
Proof.
  intros w.
  pose proof (Inv_reachable URL_canParse env lo ls) as HI. fold w in HI.
  assert (HQ : quiet w) by (apply (quiet_run lo); [apply Inv_initial|done]).
  pose proof (inv_phase _ _ HI) as Hph. unfold phase_ok in Hph. unfold session_state.
  clearbody w.
  destruct (_initializePromise (this w)) as [p|]; [|apply HQ, Hph].
  destruct (promises w !! p) as [[| |e]|]; [apply HQ, Hph| |apply HQ, Hph|done].
  destruct Hph as (_ & _ & pg & -> & _). done.
Qed.


(** X10. Only the page of the session is listened to: an event of any other
    page, its closing included, changes nothing. *)
Theorem events_of_other_pages_are_ignored lo ls pg ev :
  let w := run URL_canParse env ls (initial_world lo) in
  _page (this w) <> Some pg ->
  step URL_canParse env w (page_emits pg ev) = w.
Proof.
  intros w Hpg. cbn.
  pose proof (Inv_reachable URL_canParse env lo ls) as HI. fold w in HI.
  pose proof (inv_phase _ _ HI) as Hph. unfold phase_ok in Hph.
  clearbody w.
  destruct (_initializePromise (this w)) as [p|];
    [|by rewrite emit_no_handlers by apply Hph].
  destruct (promises w !! p) as [[| |e]|];
    [by rewrite emit_no_handlers by apply Hph| |
     by rewrite emit_no_handlers by apply Hph|done].
  destruct Hph as (_ & _ & pg0 & Hpg0 & Hhs & _).
  apply (emit_other_page pg pg0); [done|congruence].
Qed.

(** *** [close] *)


Lemma rejected_run lo p e ls : forall w,
  Inv lo w ->
  _initializePromise (this w) = Some p -> promises w !! p = Some (Rejected e) ->
  this (run URL_canParse env ls w) = this w /\
  promises (run URL_canParse env ls w) = promises w /\
  trace (run URL_canParse env ls w) = trace w.
Proof.
  induction ls as [|l ls IH]; intros w HI Hcur Hp; [done|].
  rewrite run_cons.
  destruct (rejected_step URL_canParse env lo w l p e HI Hcur Hp) as (Ht & Hps & Htr & _).
  destruct (IH (step URL_canParse env w l)) as (-> & -> & ->);
    [by apply Inv_step|congruence..|done].
Qed.

End WithURL.

(** *** What the first initialization attaches to *)

Lemma attach_to_split b :
  attach_to b
  = [call_ensurePage; answer 0 (obliging b)]
      ++ [answer 0 (obliging b); answer 0 (obliging b);
          answer 0 (obliging b); answer 0 (obliging b)].
Proof. reflexivity. Qed.

(** X5. Let the environment answer every call with success and the
    connection with browser [b], whose first context has [pg] as its first
    page. The first initialization ends with the session ready on [pg]:
    [_browser] is [b], [_page] is [pg], the three listeners are on [pg],
    the caller gets [pg], one connection was made and nothing waits. Other
    contexts and other pages of [b] play no part. *)
Theorem initialization_attaches_to_the_first_page URL_canParse env lo b ctx pg :
  (forall endpoint, truthy (PLAYWRIGHT_WS_ENDPOINT env) = Some endpoint ->
                    URL_canParse endpoint = true) ->
  head (contexts b) = Some ctx -> head (pages ctx) = Some pg ->
  let w := run URL_canParse env (attach_to b) (initial_world lo) in
  session_state w = Some (ready pg) /\
  _browser (this w) = Some b /\
  _page (this w) = Some pg /\
  handlers w = on_page pg /\
  map result (callers w) = [Some (Returned (Some pg))] /\
  connection_attempts w = 1 /\
  tasks w = [].
Proof.
  intros Hurl Hctx Hpg w. subst w.
  destruct b as [id [|[pgs] cs]]; cbn in Hctx; [done|].
  injection Hctx as <-. destruct pgs as [|pg' pgs]; cbn in Hpg; [done|].
  injection Hpg as ->.
  rewrite attach_to_split, run_app.
  remember (run URL_canParse env [call_ensurePage; answer 0 (obliging _)] (initial_world lo))
    as w2 eqn:E.
  cbn -[truthy] in E.
  destruct (truthy (PLAYWRIGHT_WS_ENDPOINT env)) as [endpoint|] eqn:Hws.
  - rewrite (Hurl endpoint eq_refl) in E. cbn in E. subst w2. cbn. done.
  - cbn in E. subst w2. cbn. done.
Qed.

(** X6. Let the connection succeed with a browser that has no context, or
    whose first context has no page. The initialization fails with a
    [TypeError]; [_browser] holds the browser that was connected and
    [_page] nothing. Whatever happens next, the session stays as it is and
    [browser.close()] is never called on that browser. *)
Theorem initialization_without_a_page_fails URL_canParse env lo b ls' :
  (forall endpoint, truthy (PLAYWRIGHT_WS_ENDPOINT env) = Some endpoint ->
                    URL_canParse endpoint = true) ->
  (forall ctx, head (contexts b) = Some ctx -> pages ctx = []) ->
  let w := run URL_canParse env (attach_to b) (initial_world lo) in
  let w' := run URL_canParse env ls' w in
  (exists msg, session_state w = Some (failed (TypeError msg))) /\
  _browser (this w) = Some b /\ _page (this w) = None /\
  this w' = this w /\ trace w' = trace w /\
  ~ In (browser_close b) (trace w').
Proof.
  intros Hurl Hb w w'.
  pose proof (Inv_reachable URL_canParse env lo (attach_to b)) as HI. fold w in HI.
  assert (Hw : exists msg,
    this w = {| _launchOptions := lo; _browser := Some b; _page := None; _console := [];
                _initializePromise := Some 0 |} /\
    promises w = [Rejected (TypeError msg)] /\
    ~ In (browser_close b) (trace w)).
  { subst w w'. clear HI.
    assert (Hpages : match contexts b with [] => True | ctx :: _ => pages ctx = [] end).
    { destruct (contexts b) as [|ctx cs] eqn:Hcs; [done|]. by apply Hb. }
    clear Hb. destruct b as [id [|[pgs] cs]]; cbn in Hpages; subst.
    all: rewrite attach_to_split, run_app.
    all: remember (run URL_canParse env [call_ensurePage; answer 0 (obliging _)]
                     (initial_world lo)) as w2 eqn:E.
    all: cbn -[truthy] in E.
    all: destruct (truthy (PLAYWRIGHT_WS_ENDPOINT env)) as [endpoint|] eqn:Hws;
      [rewrite (Hurl endpoint eq_refl) in E|].
    all: cbn in E; subst w2; cbn; eexists; split_and!; try done.
    all: intros H; repeat destruct H as [H|H]; done. }
  destruct Hw as (msg & Hthis & Hps & Htr).
  destruct (rejected_run URL_canParse env lo 0 (TypeError msg) ls' w HI)
    as (Ht' & Hps' & Htr').
  { by rewrite Hthis. } { by rewrite Hps. }
  fold w' in Ht', Hps', Htr'. clearbody w w'.
  split_and!; try done.
  - exists msg. unfold session_state. by rewrite Hthis, Hps.
  - by rewrite Hthis.
  - by rewrite Hthis.
  - by rewrite Htr'.
Qed.

(** X3 at an instance: no browser listens on the debugging port; then
    [ensurePage] is called again and page 7 closes. *)
Lemma never_retried_witness :
  let refused := answer 0 (refusing ECONNREFUSED) in
  let w := run (fun _ => true) no_env [call_ensurePage; refused; refused; refused]
             (initial_world None) in
  _initializePromise (this w) = Some 0 /\
  promises w !! 0 = Some (Rejected ECONNREFUSED) /\
  trace (run (fun _ => true) no_env [call_ensurePage; page_emits 7 ev_close] w) = trace w.
Proof.
  split; [reflexivity|]. split; [reflexivity|].
  exact (proj1 (proj2 (proj2
           (failed_initialization_is_never_retried (fun _ => true) no_env None
              [call_ensurePage; answer 0 (refusing ECONNREFUSED);
               answer 0 (refusing ECONNREFUSED); answer 0 (refusing ECONNREFUSED)]
              [call_ensurePage; page_emits 7 ev_close] 0 ECONNREFUSED eq_refl eq_refl)))).
Defined.

(** X5 at an instance: the browser with the pages 7 and 8. *)
Lemma first_page_witness :
  let w := run (fun _ => true) no_env (attach_to chrome) (initial_world None) in
  (forall endpoint, truthy (PLAYWRIGHT_WS_ENDPOINT no_env) = Some endpoint ->
                    (fun _ : string => true) endpoint = true) /\
  head (contexts chrome) = Some {| pages := [7; 8] |} /\
  session_state w = Some (ready 7).
Proof.
  assert (H : forall endpoint, truthy (PLAYWRIGHT_WS_ENDPOINT no_env) = Some endpoint ->
                               (fun _ : string => true) endpoint = true) by done.
  split; [exact H|]. split; [reflexivity|].
  exact (proj1 (initialization_attaches_to_the_first_page (fun _ => true) no_env None chrome
                  {| pages := [7; 8] |} 7 H eq_refl eq_refl)).
Defined.

(** X6 at an instance: the browser on the debugging port has no context. *)
Lemma no_page_witness :
  let w := run (fun _ => true) no_env (attach_to bare_browser) (initial_world None) in
  (forall endpoint, truthy (PLAYWRIGHT_WS_ENDPOINT no_env) = Some endpoint ->
                    (fun _ : string => true) endpoint = true) /\
  (forall ctx, head (contexts bare_browser) = Some ctx -> pages ctx = []) /\
  _browser (this w) = Some bare_browser.
Proof.
  assert (Hurl : forall endpoint, truthy (PLAYWRIGHT_WS_ENDPOINT no_env) = Some endpoint ->
                                  (fun _ : string => true) endpoint = true) by done.
  assert (H : forall ctx, head (contexts bare_browser) = Some ctx -> pages ctx = [])
    by (intros ctx [=]).
  split; [exact Hurl|]. split; [exact H|].
  exact (proj1 (proj2 (initialization_without_a_page_fails (fun _ => true) no_env None
                         bare_browser [] Hurl H))).
Defined.

(** X10 at an instance: the session is ready on page 7, and page 8 closes. *)
Lemma other_page_witness :
  let w := run (fun _ => true) no_env until_ready (initial_world None) in
  _page (this w) <> Some 8 /\
  step (fun _ => true) no_env w (page_emits 8 ev_close) = w.
Proof.
  assert (H : _page (this (run (fun _ => true) no_env until_ready (initial_world None)))
              <> Some 8) by (cbn; congruence).
  split; [exact H|].
  exact (events_of_other_pages_are_ignored (fun _ => true) no_env None until_ready 8
           ev_close H).
Defined.

End SessionFacts.

(** ** More of the tools *)

Module ToolFacts.
Import Dispatch.

Lemma parse_navigate fields url :
  property fields "url" = Some (JString url) ->
  parse navigateSchema (Some (JObject fields)) = Returned [("url", JString url)].
Proof.
  intros H. unfold parse, navigateSchema, strip, check_key. cbn. by rewrite H.
Qed.

(** X12. [browser_navigate] with a [url]: the page is taken, [goto] is
    called, and the load event is waited for; how that wait ends does not
    matter. A failing [goto] is reported as an error result and nothing
    more is asked of the page; when [goto] succeeds the result is the
    snapshot or the text [Navigated to url], whether or not the load event
    came in time. *)
Theorem navigate_does_not_depend_on_the_load_event snapshot fields url h :
  property fields "url" = Some (JString url) ->
  let request := {| req_name := "browser_navigate";
                    req_arguments := Some (JObject fields) |} in
  let out := callTool [navigate snapshot] request h in
  match replies h existingPage, replies h (page_goto url) with
  | Threw e, _ =>
      fst out = Returned (error_result (String_ e)) /\
      performed (snd out) = performed h ++ [existingPage]
  | Returned _, Threw e =>
      fst out = Returned (error_result (String_ e)) /\
      performed (snd out) = performed h ++ [existingPage; page_goto url]
  | Returned _, Returned _ =>
      if snapshot then
        performed (snd out)
        = performed h ++ [existingPage; page_goto url; page_waitForLoadState;
                          captureAriaSnapshot] /\
        fst out = match replies h captureAriaSnapshot with
                  | Returned r => Returned r
                  | Threw e => Returned (error_result (String_ e))
                  end
      else
        performed (snd out)
        = performed h ++ [existingPage; page_goto url; page_waitForLoadState] /\
        fst out = Returned (plain ("Navigated to " +:+ url))
  end.
Proof.
  intros H. cbn -[parse]. unfold try_catch, mbind.
  rewrite (parse_navigate fields url H). cbn.
  destruct (replies h existingPage) as [r0|e0]; cbn; [|done].
  destruct (replies h (page_goto url)) as [r1|e1]; cbn;
    [|by rewrite <- app_assoc].
  destruct (replies h page_waitForLoadState) as [r2|e2]; cbn.
  - destruct snapshot; cbn.
    + destruct (replies h captureAriaSnapshot); cbn; by rewrite <- !app_assoc.
    + by rewrite <- !app_assoc.
  - destruct snapshot; cbn.
    + destruct (replies h captureAriaSnapshot); cbn; by rewrite <- !app_assoc.
    + by rewrite <- !app_assoc.
Qed.



Lemma parse_type fields element ref text submit :
  property fields "element" = Some (JString element) ->
  property fields "ref" = Some (JString ref) ->
  property fields "text" = Some (JString text) ->
  property fields "submit" = Some (JBool submit) ->
  parse typeSchema (Some (JObject fields))
  = Returned [("element", JString element); ("ref", JString ref);
              ("text", JString text); ("submit", JBool submit)].
Proof.
  intros H1 H2 H3 H4. unfold parse, typeSchema, elementSchema, strip, check_key. cbn.
  by rewrite H1, H2, H3, H4.
Qed.

(** X14. [browser_type] with [element], [ref], [text] and [submit]: one
    [runAndWait] is asked for, whose callback fills [text] into the
    element that [ref] names and then presses Enter on it exactly when
    [submit] is true; a snapshot is asked for with it. Other keys of the
    arguments play no part. *)
Theorem type_presses_Enter_only_on_submit fields element ref text submit h :
  property fields "element" = Some (JString element) ->
  property fields "ref" = Some (JString ref) ->
  property fields "text" = Some (JString text) ->
  property fields "submit" = Some (JBool submit) ->
  let status := "Typed " +:+ dquote +:+ text +:+ dquote +:+ " into "
                  +:+ dquote +:+ element +:+ dquote in
  let typing := runAndWait status
                  (act_fill ref text :: if submit then [act_press ref "Enter"] else [])
                  true false in
  let out := handle type (Some (JObject fields)) h in
  performed (snd out) = performed h ++ [typing] /\ fst out = replies h typing.
Proof.
  intros H1 H2 H3 H4. cbn -[parse typeSchema]. unfold mbind.
  by rewrite (parse_type fields element ref text submit H1 H2 H3 H4).
Qed.

(** X12 at an instance: the load event does not come. *)
Lemma navigate_witness :
  let slow := {| performed := [];
                 replies := fun op => match op with
                                      | page_waitForLoadState =>
                                          Threw (Err "TimeoutError" "Timeout 5000ms exceeded")
                                      | _ => Returned (plain "ok")
                                      end;
                 invocations := 0 |} in
  property [("url", JString "https://example.com")] "url"
  = Some (JString "https://example.com") /\
  fst (callTool [navigate false]
         {| req_name := "browser_navigate";
            req_arguments := Some (JObject [("url", JString "https://example.com")]) |} slow)
  = Returned (plain "Navigated to https://example.com").
Proof.
  split; [reflexivity|].
  exact (proj2 (navigate_does_not_depend_on_the_load_event false
                  [("url", JString "https://example.com")] "https://example.com"
                  {| performed := [];
                     replies := fun op => match op with
                                          | page_waitForLoadState =>
                                              Threw (Err "TimeoutError" "Timeout 5000ms exceeded")
                                          | _ => Returned (plain "ok")
                                          end;
                     invocations := 0 |} eq_refl)).
Defined.


(** X14 at an instance: a search box is filled and submitted; the
    arguments carry a key that the schema does not declare. *)
Lemma type_witness :
  let fields := [("element", JString "Search"); ("ref", JString "e5");
                 ("note", JNull); ("text", JString "rocq"); ("submit", JBool true)] in
  property fields "submit" = Some (JBool true) /\
  performed (snd (handle type (Some (JObject fields)) fresh_host))
  = [runAndWait ("Typed " +:+ dquote +:+ "rocq" +:+ dquote +:+ " into "
                   +:+ dquote +:+ "Search" +:+ dquote)
       [act_fill "e5" "rocq"; act_press "e5" "Enter"] true false].
Proof.
  split; [reflexivity|].
  exact (proj1 (type_presses_Enter_only_on_submit
                  [("element", JString "Search"); ("ref", JString "e5");
                   ("note", JNull); ("text", JString "rocq"); ("submit", JBool true)]
                  "Search" "e5" "rocq" true fresh_host eq_refl eq_refl eq_refl eq_refl)).
Defined.

End ToolFacts.

(** ** Listing and reading *)

Module RegistryFacts.
Import Dispatch Registry.




Section Resources.

Context {ResourceSchema ResourceContents : Type}.
Variable uri : ResourceSchema -> string.

Lemma find_at_uri_None u (resources : list (Resource ResourceSchema ResourceContents)) :
  List.find (at_uri uri u) resources = None
  <-> ~ In u (map uri (listResources resources)).
Proof.
  unfold listResources. rewrite List.map_map.
  induction resources as [|r resources IH]; cbn; [tauto|].
  unfold at_uri at 1. destruct (String.eqb_spec (uri (resource_schema r)) u) as [E|E]; [|tauto].
  split; [done|]. intros H. destruct H. by left.
Qed.

Lemma find_at_uri_first u (before : list (Resource ResourceSchema ResourceContents))
    resource after :
  uri (resource_schema resource) = u ->
  ~ In u (map uri (listResources before)) ->
  List.find (at_uri uri u) (before ++ resource :: after) = Some resource.
Proof.
  intros Hu Hb. induction before as [|r before IH]; cbn.
  - unfold at_uri. by rewrite Hu, String.eqb_refl.
  - cbn in Hb. unfold at_uri at 1.
    destruct (String.eqb_spec (uri (resource_schema r)) u) as [E|E]; [tauto|].
    apply IH. tauto.
Qed.

(** X16. Reading a resource. A URI that [listResources] does not list
    gives empty contents, and no resource is read. A listed URI is read
    from the first resource listed under it, and what its [read] does is
    what the request does: its contents are returned as they are, and
    when it throws, the request handler throws the same error; there is
    no error result as there is for tools. *)
Theorem readResource_reads_the_first_resource_listed
    (resources : list (Resource ResourceSchema ResourceContents)) request_uri h :
  (~ In request_uri (map uri (listResources resources)) ->
   readResource uri resources request_uri h = (Returned [], h)) /\
  (forall before resource after,
     resources = before ++ resource :: after ->
     uri (resource_schema resource) = request_uri ->
     ~ In request_uri (map uri (listResources before)) ->
     readResource uri resources request_uri h = read resource request_uri h).
Proof.
  split.
  - intros H%find_at_uri_None. unfold readResource. by rewrite H.
  - intros before resource after -> Hu Hb. unfold readResource.
    rewrite (find_at_uri_first _ before resource after Hu Hb).
    unfold mbind, ret. by destruct (read resource request_uri h) as [[contents|e] h'].
Qed.

End Resources.


(** X16 at an instance: the one resource listed cannot be read. *)
Lemma readResource_witness :
  let e := Err "Error" "ENOENT" in
  readResource id [unreadable "console://logs" e] "console://logs" fresh_host
  = (Threw e, fresh_host).
Proof.
  exact (proj2 (readResource_reads_the_first_resource_listed id
                  [unreadable "console://logs" (Err "Error" "ENOENT")]
                  "console://logs" fresh_host)
           [] (unreadable "console://logs" (Err "Error" "ENOENT")) [] eq_refl eq_refl
           (fun H => H)).
Defined.

End RegistryFacts.

(** ** The REPL *)

Module ReplFacts.
Import Repl.

Lemma or_else_nonempty a b : b <> EmptyString -> or_else a b <> EmptyString.
Proof.
  intros Hb. unfold or_else. destruct (String.eqb_spec a EmptyString); done.
Qed.

(** X17. [executePlaywrightCode] runs one command, the [node] command line
    with the quoted code, under the given timeout. When the subprocess
    exits in time and [message.json] can be read, the message read is
    returned as it is. In every other case (the subprocess fails or times
    out, or the message cannot be read) nothing is thrown: the message
    returned has type [error], carries the code as it was given and the
    time of the clock, and a result text that is never empty. *)
Theorem executePlaywrightCode_reports_failures code timeout sh :
  let out := executePlaywrightCode code timeout sh in
  let after := executed sh ++ [(command_line code, timeout)] in
  executed (snd out) = after /\
  match execSync sh after, readReplMessage sh after with
  | None, Returned message => fst out = message
  | _, _ =>
      type (fst out) = Some error /\
      Repl.code (fst out) = Some code /\
      timestamp (fst out) = Date_now sh after /\
      exists text, result (fst out) = Some text /\ text <> EmptyString
  end.
Proof.
  cbn. unfold executePlaywrightCode. cbn.
  destruct (execSync sh _) as [e|].
  - split; [done|]. split_and!; try done.
    eexists. split; [reflexivity|]. by apply or_else_nonempty.
  - destruct (readReplMessage sh _) as [m|e]; [done|].
    split; [done|]. split_and!; try done.
    eexists. split; [reflexivity|]. by apply or_else_nonempty.
Qed.

Lemma escape_quotes_escaped s : forall after_backslash,
  quotes_escaped after_backslash (escape_quotes s) = true.
Proof.
  induction s as [|c s IH]; intros ab; [done|]. cbn [escape_quotes].
  destruct (Ascii.eqb c quote_char) eqn:E.
  - cbn [quotes_escaped]. rewrite Ascii.eqb_refl.
    change (Ascii.eqb backslash quote_char) with false.
    change (Ascii.eqb quote_char backslash) with false. cbn. apply IH.
  - cbn [quotes_escaped]. rewrite E. cbn. apply IH.
Qed.

Lemma escape_quotes_head s :
  match escape_quotes s with
  | String c _ => Ascii.eqb c quote_char = false
  | EmptyString => True
  end.
Proof.
  destruct s as [|c s]; [done|]. cbn.
  by destruct (Ascii.eqb c quote_char) eqn:E.
Qed.

Lemma escape_quotes_inj s1 : forall s2, escape_quotes s1 = escape_quotes s2 -> s1 = s2.
Proof.
  induction s1 as [|c1 s1 IH]; intros [|c2 s2] H; cbn in H.
  - done.
  - by destruct (Ascii.eqb c2 quote_char).
  - by destruct (Ascii.eqb c1 quote_char).
  - destruct (Ascii.eqb c1 quote_char) eqn:E1, (Ascii.eqb c2 quote_char) eqn:E2.
    + apply Ascii.eqb_eq in E1, E2. subst. injection H as H. by rewrite (IH s2 H).
    + injection H as <- H. pose proof (escape_quotes_head s2) as Hh.
      rewrite <- H in Hh. by rewrite Ascii.eqb_refl in Hh.
    + injection H as -> H. pose proof (escape_quotes_head s1) as Hh.
      rewrite H in Hh. by rewrite Ascii.eqb_refl in Hh.
    + injection H as -> H. by rewrite (IH s2 H).
Qed.

Lemma length_append s1 s2 :
  String.length (s1 +:+ s2) = String.length s1 + String.length s2.
Proof.
  induction s1 as [|c s1 IH]; [done|].
  change (String c s1 +:+ s2) with (String c (s1 +:+ s2)). cbn. by rewrite IH.
Qed.

Lemma append_inj_r s : forall s1 s2, s1 +:+ s = s2 +:+ s -> s1 = s2.
Proof.
  intros s1 s2 H.
  assert (Hlen : String.length s1 = String.length s2).
  { apply (f_equal String.length) in H. rewrite !length_append in H. lia. }
  revert s2 H Hlen. induction s1 as [|c1 s1 IH]; intros [|c2 s2] H Hlen; try done.
  change (String c1 (s1 +:+ s) = String c2 (s2 +:+ s)) in H.
  injection H as -> H. f_equal. apply IH; [done|]. cbn in Hlen. lia.
Qed.

Lemma append_inj_l s : forall s1 s2, s +:+ s1 = s +:+ s2 -> s1 = s2.
Proof.
  induction s as [|c s IH]; intros s1 s2 H; [done|].
  change (String c (s +:+ s1) = String c (s +:+ s2)) in H.
  injection H as H. by apply IH.
Qed.

Lemma occurs_append c s1 s2 : occurs c (s1 +:+ s2) = occurs c s1 || occurs c s2.
Proof.
  induction s1 as [|c1 s1 IH]; [done|].
  change (String c1 s1 +:+ s2) with (String c1 (s1 +:+ s2)). cbn.
  by rewrite IH, orb_assoc.
Qed.

Lemma escape_quotes_without_quotes s :
  occurs quote_char s = false -> escape_quotes s = s.
Proof.
  induction s as [|c s IH]; [done|]. cbn.
  intros [-> Hs]%orb_false_elim. by rewrite IH.
Qed.

(** X18. The command line is [node], the path of the REPL script, and one
    argument in double quotes. In the argument every double quote stands
    right behind a backslash. Nothing else is escaped: a code without
    double quotes, whatever else it holds, is the argument as it is, with
    the line end and the semicolon after it. Different codes give
    different command lines. *)
Theorem command_line_escapes_every_quote code :
  exists argument,
    command_line code
    = "node " +:+ REPL_UTILS_PATH +:+ " " +:+ dquote +:+ argument +:+ dquote /\
    quotes_escaped false argument = true /\
    (occurs quote_char code = false -> argument = code +:+ String newline ";") /\
    (forall code', command_line code = command_line code' -> code = code').
Proof.
  eexists. split_and!.
  - reflexivity.
  - apply escape_quotes_escaped.
  - intros Hq. apply escape_quotes_without_quotes.
    by rewrite occurs_append, Hq.
  - intros code' H. unfold command_line in H.
    do 4 apply append_inj_l in H.
    apply append_inj_r, escape_quotes_inj, append_inj_r in H. done.
Qed.

(** X19. [replHealhCheck] runs the health-check line under a timeout of
    three seconds and passes exactly when the subprocess exits in time and
    the message it leaves has type [success]. It throws the same
    REPL-is-not-working error in every other case: the subprocess fails,
    [message.json] cannot be read, or the message has type [error] or no
    type at all. *)
Theorem replHealhCheck_passes_only_on_success sh :
  let out := replHealhCheck sh in
  let after := executed sh ++ [(command_line health_check_code, 3000%Z)] in
  executed (snd out) = after /\
  (fst out = Returned true \/ fst out = Threw REPL_is_not_working) /\
  (fst out = Returned true <->
   execSync sh after = None /\
   exists m, readReplMessage sh after = Returned m /\ type m = Some success).
Proof.
  cbn. unfold replHealhCheck, executePlaywrightCode. cbn.
  destruct (execSync sh _) as [e|]; cbn.
  - split_and!; [done|by right|]. split; [done|]. by intros [? _].
  - destruct (readReplMessage sh _) as [m|e]; cbn.
    + destruct (type m) as [[]|] eqn:Hm; cbn.
      * split_and!; [done|by left|]. split; [|done]. intros _. split; [done|]. eauto.
      * split_and!; [done|by right|]. split; [done|].
        intros (_ & m' & [= <-] & Hm'). congruence.
      * split_and!; [done|by right|]. split; [done|].
        intros (_ & m' & [= <-] & Hm'). congruence.
    + split_and!; [done|by right|]. split; [done|].
      by intros (_ & m' & ? & _).
Qed.

Lemma executed_after_health sh :
  executed (snd (replHealhCheck sh))
  = executed sh ++ [(command_line health_check_code, 3000%Z)].
Proof.
  unfold replHealhCheck, executePlaywrightCode. cbn.
  destruct (execSync sh _) as [e|]; cbn; [done|].
  destruct (readReplMessage sh _) as [m|e]; cbn; [|done].
  by destruct (type m) as [[]|].
Qed.

Lemma executed_after_code code timeout sh :
  executed (snd (executePlaywrightCode code timeout sh))
  = executed sh ++ [(command_line code, timeout)].
Proof.
  unfold executePlaywrightCode. cbn.
  destruct (execSync sh _) as [e|]; cbn; [done|].
  by destruct (readReplMessage sh _) as [m|e].
Qed.

Lemma parse_code fields code :
  Dispatch.property fields "code" = Some (Dispatch.JString code) ->
  Dispatch.parse evaluatePlaywrightSchema (Some (Dispatch.JObject fields))
  = Returned [("code", Dispatch.JString code)].
Proof.
  intros H. unfold Dispatch.parse, evaluatePlaywrightSchema, Dispatch.strip,
    Dispatch.check_key. cbn. by rewrite H.
Qed.

Lemma result_text_nonempty m : result_text m <> EmptyString.
Proof.
  unfold result_text. destruct (result m); [|done]. by apply or_else_nonempty.
Qed.

(** X20. [browser_evaluate_playwright] with a [code]: the health check
    runs first. When it fails, the handler throws its error and the code
    is never handed to the REPL. When it passes, the code is run under the
    default timeout of 60 seconds, and the handler returns a text result
    that is not marked as an error and never empty, whatever became of the
    run: a failed or timed-out run is reported as plain text. *)
Theorem evaluatePlaywright_checks_health_first fields code sh :
  Dispatch.property fields "code" = Some (Dispatch.JString code) ->
  let out := evaluatePlaywright (Some (Dispatch.JObject fields)) sh in
  let health := (command_line health_check_code, 3000%Z) in
  match fst (replHealhCheck sh) with
  | Threw e =>
      fst out = Threw e /\ executed (snd out) = executed sh ++ [health]
  | Returned _ =>
      executed (snd out) = executed sh ++ [health; (command_line code, 60000%Z)] /\
      exists text,
        fst out = Returned {| Dispatch.content := [Dispatch.text_content text];
                              Dispatch.isError := None |} /\
        text <> EmptyString
  end.
Proof.
  intros H. cbn. unfold evaluatePlaywright. rewrite (parse_code fields code H).
  pose proof (executed_after_health sh) as Hex.
  destruct (replHealhCheck sh) as [[ok|e] sh'] eqn:Hh; cbn in *; [|done].
  pose proof (executed_after_code code default_timeout sh') as Hex'.
  destruct (executePlaywrightCode _ _ sh') as [execution sh''] eqn:He. cbn in *.
  rewrite Hex', Hex, <- app_assoc. split; [done|].
  eexists. split; [reflexivity|]. apply result_text_nonempty.
Qed.

Lemma through_last_close_None s :
  through_last_close s = None <-> occurs close_brace s = false.
Proof.
  induction s as [|c s IH]; cbn; [done|].
  destruct (through_last_close s) as [m|].
  - split; [done|]. intros [_ H]%orb_false_elim. by apply IH in H.
  - destruct (Ascii.eqb c close_brace); cbn; [done|]. tauto.
Qed.

Lemma through_last_close_Some s m :
  through_last_close s = Some m ->
  exists body post,
    m = body +:+ String close_brace EmptyString /\ s = m +:+ post /\
    occurs close_brace post = false.
Proof.
  revert m. induction s as [|c s IH]; intros m H; cbn in H; [done|].
  destruct (through_last_close s) as [m'|] eqn:Hs.
  - injection H as <-. destruct (IH m' eq_refl) as (body & post & -> & -> & Hpost).
    exists (String c body), post. by split_and!.
  - destruct (Ascii.eqb c close_brace) eqn:E; [|done]. injection H as <-.
    apply Ascii.eqb_eq in E as ->.
    exists EmptyString, s. split_and!; [done..|]. by apply through_last_close_None.
Qed.

Lemma through_last_close_greedy body post :
  occurs close_brace post = false ->
  through_last_close (body +:+ String close_brace post)
  = Some (body +:+ String close_brace EmptyString).
Proof.
  intros Hpost. induction body as [|c body IH].
  - change (EmptyString +:+ ?s) with s. cbn [through_last_close].
    apply through_last_close_None in Hpost as ->. by rewrite Ascii.eqb_refl.
  - change (String c body +:+ ?s) with (String c (body +:+ s)).
    cbn [through_last_close]. by rewrite IH.
Qed.

Lemma match_braces_Some text m :
  match_braces text = Some m ->
  exists pre body post,
    m = braces body /\ text = pre +:+ m +:+ post /\
    occurs close_brace post = false.
Proof.
  revert m. induction text as [|c s IH]; intros m H; cbn in H; [done|].
  assert (Hrest : match_braces s = Some m ->
    exists pre body post,
      m = braces body /\ String c s = pre +:+ m +:+ post /\
      occurs close_brace post = false).
  { intros (pre & body & post & -> & -> & Hpost)%IH.
    exists (String c pre), body, post. by split_and!. }
  destruct (Ascii.eqb c open_brace) eqn:E; [|by apply Hrest].
  destruct (through_last_close s) as [m'|] eqn:Hs; [|by apply Hrest].
  injection H as <-. apply Ascii.eqb_eq in E as ->.
  destruct (through_last_close_Some s m' Hs) as (body & post & -> & -> & Hpost).
  exists EmptyString, body, post. by split_and!.
Qed.

Lemma match_braces_first pre body post :
  occurs open_brace pre = false -> occurs close_brace post = false ->
  match_braces (pre +:+ braces body +:+ post) = Some (braces body).
Proof.
  intros Hpre Hpost. induction pre as [|c pre IH].
  - change (EmptyString +:+ ?s) with s. unfold braces.
    change (String open_brace ?b +:+ post) with (String open_brace (b +:+ post)).
    cbn [match_braces]. rewrite Ascii.eqb_refl.
    rewrite DispatchFacts.append_assoc.
    change (String close_brace EmptyString +:+ post) with (String close_brace post).
    by rewrite through_last_close_greedy.
  - cbn in Hpre. apply orb_false_elim in Hpre as [Hc Hpre].
    change (String c pre +:+ ?s) with (String c (pre +:+ s)).
    cbn [match_braces]. rewrite Hc. by apply IH.
Qed.

Section WithJSON.

Variable JSON_parse : string -> outcome Dispatch.Json.

(** X21. [getVariableStore] runs its line in the REPL under a timeout of
    three seconds and looks into the result text, which is the error text
    when the run failed. What is handed to [JSON.parse] runs from the first
    opening brace to the last closing brace of the text, whatever stands
    between them. Without a result text, or with no opening brace that has
    a closing brace after it, it throws that the store could not be
    parsed. *)
Theorem getVariableStore_parses_from_first_to_last_brace sh :
  let run := executePlaywrightCode variable_store_code 3000 sh in
  let out := getVariableStore JSON_parse sh in
  snd out = snd run /\
  match result (fst run) with
  | None => fst out = Threw could_not_parse
  | Some text =>
      (forall pre body post,
          text = pre +:+ braces body +:+ post ->
          occurs open_brace pre = false -> occurs close_brace post = false ->
          fst out = JSON_parse (braces body)) /\
      ((forall pre body post, text <> pre +:+ braces body +:+ post) ->
       fst out = Threw could_not_parse)
  end.
Proof.
  cbn. unfold getVariableStore.
  destruct (executePlaywrightCode variable_store_code 3000 sh) as [execution sh'].
  cbn. destruct (result execution) as [text|]; [|done].
  destruct (match_braces text) as [m|] eqn:Hm; cbn.
  - split; [done|]. split.
    + intros pre body post -> Hpre Hpost.
      rewrite (match_braces_first pre body post Hpre Hpost) in Hm. by injection Hm as <-.
    + intros Hno. destruct (match_braces_Some text m Hm) as (pre & body & post & -> & -> & _).
      by destruct (Hno pre body post).
  - split; [done|]. split; [|done].
    intros pre body post -> Hpre Hpost.
    by rewrite (match_braces_first pre body post Hpre Hpost) in Hm.
Qed.

End WithJSON.

(** X22. The completer of the REPL returns the line as it was typed and,
    as suggestions, the completions that start with the line, in their
    order; when none does it suggests all of them. It never suggests
    anything that is no completion, and it suggests something whenever
    there is a completion at all. *)
Theorem completer_suggests_known_completions completions line :
  let hits := fst (completer completions line) in
  snd (completer completions line) = line /\
  (forall c, In c hits -> In c completions) /\
  (completions <> [] -> hits <> []) /\
  ((exists c, In c completions /\ startsWith c line = true) ->
   hits = List.filter (fun c => startsWith c line) completions) /\
  ((forall c, In c completions -> startsWith c line = false) -> hits = completions).
Proof.
  cbn. split; [done|].
  destruct (List.filter (fun c => startsWith c line) completions) as [|c0 hits] eqn:Hf.
  - split_and!; try done.
    intros (c & Hc & Hs).
    assert (Hin : In c (List.filter (fun c => startsWith c line) completions)).
    { apply filter_In. by split. }
    by rewrite Hf in Hin.
  - split_and!; try done.
    + intros c Hc. rewrite <- Hf in Hc. by apply filter_In in Hc as [? _].
    + intros Hnone.
      assert (Hin : In c0 (List.filter (fun c => startsWith c line) completions)).
      { rewrite Hf. by left. }
      apply filter_In in Hin as [Hin Hs]. by rewrite (Hnone c0 Hin) in Hs.
Qed.

(** X20 at an instance: no REPL is there. *)
Lemma evaluatePlaywright_witness :
  Dispatch.property [("code", Dispatch.JString "page.title()")] "code"
  = Some (Dispatch.JString "page.title()") /\
  fst (evaluatePlaywright
         (Some (Dispatch.JObject [("code", Dispatch.JString "page.title()")])) down)
  = Threw REPL_is_not_working.
Proof.
  split; [reflexivity|].
  exact (proj1 (evaluatePlaywright_checks_health_first
                  [("code", Dispatch.JString "page.title()")] "page.title()" down eq_refl)).
Defined.

End ReplFacts.

(** ** More of the ancestor-HTML ascent *)

Module AscentFacts.
Import Ancestor AncestorFacts.

Section WithPrettier.

Variable prettier_format : string -> outcome string.

Lemma ascend_returns fuel d el : forall L c k r,
  resolve d L = Some c -> ancestor d el k = Some c ->
  (forall i, 1 <= i <= k -> exists b, ancestor d el i = Some b /\ passed d b) ->
  ascend prettier_format fuel d L (outerHTML d c) = Some r ->
  exists j a,
    j <= fuel + k /\
    ancestor d el j = Some a /\
    (forall i, 1 <= i < j -> exists b, ancestor d el i = Some b /\ passed d b) /\
    (parentElement d a = None /\ r = Threw TimeoutError \/
     r = formatHTML prettier_format (outerHTML d a) /\
     (1 <= j -> exceeds (outerHTML d a) = false) /\
     ((exists p, parentElement d a = Some p /\ exceeds (outerHTML d p) = true) \/
      1 <= j /\ is_top (toLowerCase (tagName d a)) = true)).
Proof.
  induction fuel as [|fuel IH]; intros L c k r HL Hk Hpass Hr; [done|].
  rewrite (ascend_last prettier_format fuel d L c) in Hr by done.
  assert (Hc : 1 <= k -> exceeds (outerHTML d c) = false).
  { intros Hk1. destruct (Hpass k) as (b & Hb & Hsmall & _); [lia|]. congruence. }
  assert (Hbelow : forall i, 1 <= i < k -> exists b, ancestor d el i = Some b /\ passed d b).
  { intros i Hi. apply Hpass. lia. }
  destruct (parentElement d c) as [p|] eqn:Hp.
  - destruct (exceeds (outerHTML d p)) eqn:Hex.
    { exists k, c. injection Hr as <-.
      split_and!; [lia|done..|]. right. split_and!; [done..|]. left. eauto. }
    destruct (is_top (toLowerCase (tagName d p))) eqn:Htop.
    { exists (S k), p. cbn [ancestor]. rewrite Hk. injection Hr as <-.
      split_and!; [lia|done| |].
      - intros i Hi. apply Hpass. lia.
      - right. split_and!; [done..|]. right. split; [lia|done]. }
    destruct (IH (parent_of L) p (S k) r) as (j & a & Hj & Ha & Hi & Hend).
    + cbn [resolve]. by rewrite HL.
    + cbn [ancestor]. by rewrite Hk.
    + intros i Hi. destruct (decide (i = S k)) as [->|Hne].
      * exists p. cbn [ancestor]. rewrite Hk. by split.
      * apply Hpass. lia.
    + exact Hr.
    + exists j, a. split_and!; [lia|done..].
  - exists k, c. injection Hr as <-. split_and!; [lia|done..|]. by left.
Qed.

(** X23. Whatever [browser_get_ancestor_html] returns for an element that
    the reference names, after at most [fuel] iterations: it is the
    formatted HTML of the element or of one of its ancestors, the [j]-th,
    with [j] at most [fuel]; the ascent passed every ancestor below it;
    an ancestor that is returned ([j >= 1]) is never over the ceiling of
    8000 characters; and the ascent went as far as it may: the parent of
    what is returned exceeds the ceiling, or what is returned is [body] or
    [html]. The one other way out is the timeout of [evaluate] on an
    ancestor chain that ends without reaching either. *)
Theorem ancestorHTML_returns_an_ancestor_under_the_ceiling d ref el fuel r :
  aria_ref d ref = Some el ->
  ancestorHTML prettier_format fuel d ref = Some r ->
  exists j a,
    j <= fuel /\
    ancestor d el j = Some a /\
    (forall i, 1 <= i < j -> exists b, ancestor d el i = Some b /\ passed d b) /\
    (parentElement d a = None /\ r = Threw TimeoutError \/
     r = formatHTML prettier_format (outerHTML d a) /\
     (1 <= j -> exceeds (outerHTML d a) = false) /\
     ((exists p, parentElement d a = Some p /\ exceeds (outerHTML d p) = true) \/
      1 <= j /\ is_top (toLowerCase (tagName d a)) = true)).
Proof.
  intros Href Hr. unfold ancestorHTML, evaluate in Hr. cbn [resolve] in Hr.
  rewrite Href in Hr.
  destruct (ascend_returns fuel d el (refLocator ref) el 0 r Href eq_refl) as
    (j & a & Hj & H); [intros i Hi; lia|exact Hr|].
  exists j, a. split; [lia|exact H].
Qed.

End WithPrettier.

(** X23 at an instance: the small page, where the [body] is returned. *)
Lemma returned_ancestor_witness :
  aria_ref small_page "e1" = Some 0 /\
  ancestorHTML verbatim 4 small_page "e1"
  = Some (Returned "<body><div><p><span>x</span></p></div></body>") /\
  exists j a, j <= 4 /\ ancestor small_page 0 j = Some a.
Proof.
  assert (H : ancestorHTML verbatim 4 small_page "e1"
              = Some (Returned "<body><div><p><span>x</span></p></div></body>")).
  { vm_compute. reflexivity. }
  split; [reflexivity|]. split; [exact H|].
  destruct (ancestorHTML_returns_an_ancestor_under_the_ceiling verbatim small_page "e1" 0 4
              _ eq_refl H) as (j & a & Hj & Ha & _).
  exists j, a. split; [exact Hj|exact Ha].
Defined.

End AscentFacts.
